(** * ZenML: Kubernetes orchestrator entrypoint configuration and GCP artifact store

    A shallow embedding of

    - [zenml/integrations/kubernetes/orchestrators/kubernetes_orchestrator_entrypoint_configuration.py]
      (the argument codec [get_fixed_step_args] / [get_step_specific_args] and
      the launch plan builder [get_entrypoint_arguments]), and
    - [zenml/integrations/gcp/artifact_stores/gcp_artifact_store.py]
      (the [GCPArtifactStore] wrapper around a [gcsfs] file system),

    followed by the properties of the specification that concern them. *)

From Stdlib Require Import String Ascii List Permutation Bool Arith Lia.
From stdpp Require Import base list strings gmap.

Open Scope string_scope.
Set Warnings "-register-all".

(** ** Python values and built-ins used by the sources *)

Module Py.

(** [s.startswith(p)] *)
Definition startswith (s p : string) : bool := String.prefix p s.

(** [s[n:]] *)
Fixpoint str_from (n : nat) (s : string) : string :=
  match n, s with
  | O, _ => s
  | S n', String _ s' => str_from n' s'
  | S _, EmptyString => EmptyString
  end.

(** [l[i:j]] for [0 <= i <= j]; a slice never raises, it is cut at the end
    of the list. *)
Definition slice {A} (l : list A) (i j : nat) : list A :=
  take (j - i) (drop i l).

(** [enumerate(l)] *)
Definition enumerate {A} (l : list A) : list (nat * A) :=
  imap (fun i x => (i, x)) l.

(** A [dict] with string keys: insertion ordered, a key stored again keeps
    its place and takes the new value. *)
Definition dict (V : Type) : Type := list (string * V).

Fixpoint dict_set {V} (k : string) (v : V) (d : dict V) : dict V :=
  match d with
  | [] => [(k, v)]
  | (k', v') :: d' =>
      if decide (k = k') then (k, v) :: d' else (k', v') :: dict_set k v d'
  end.

Definition keys {V} (d : dict V) : list string := d.*1.

(** [{key(x): value(x) for x in l}] *)
Definition dict_comprehension {A V} (key : A -> string) (value : A -> V)
    (l : list A) : dict V :=
  foldl (fun d x => dict_set (key x) (value x) d) [] l.

(** The documents [json.dumps] is applied to here: strings, lists and
    objects. *)
Inductive json : Type :=
| JString (s : string)
| JArray (l : list json)
| JObject (fields : list (string * json)).

Definition json_strs (l : list string) : json := JArray (JString <$> l).

Definition json_dict (d : dict (list string)) : json :=
  JObject ((fun kv => (kv.1, json_strs kv.2)) <$> d).

Definition json_keys (j : json) : list string :=
  match j with
  | JObject fields => fields.*1
  | _ => []
  end.

Definition json_get (k : string) (j : json) : option json :=
  match j with
  | JObject fields => snd <$> find (fun kv => bool_decide (kv.1 = k)) fields
  | _ => None
  end.

(** [d.get(k)] *)
Definition dict_get {V} (k : string) (d : dict V) : option V :=
  snd <$> find (fun kv => bool_decide (kv.1 = k)) d.

End Py.

(** ** The orchestrator entrypoint configuration *)

Module KubernetesOrchestratorEntrypoint.
Import Py.

Definition PIPELINE_NAME_OPTION : string := "pipeline_name".
Definition IMAGE_NAME_OPTION : string := "image_name".
Definition NAMESPACE_OPTION : string := "kubernetes_namespace".
Definition PIPELINE_CONFIG_OPTION : string := "pipeline_config".

Section ArgumentCodec.

(** [STEP_SPECIFIC_STEP_ENTRYPOINT_OPTIONS]: the three option names are
    imported from [zenml.entrypoints.step_entrypoint_configuration], which is
    not part of the sources at hand; the codec is stated for any list. *)
Variable STEP_SPECIFIC_STEP_ENTRYPOINT_OPTIONS : list string.

(** [arg[2:] not in STEP_SPECIFIC_STEP_ENTRYPOINT_OPTIONS] *)
Definition is_fixed (arg : string) : bool :=
  negb (bool_decide (str_from 2 arg ∈ STEP_SPECIFIC_STEP_ENTRYPOINT_OPTIONS)).

(** One turn of the [for i, arg in enumerate(step_args)] loop. *)
Definition codec_step (step_args : list string) (get_fixed : bool)
    (fixed_args : list string) (ia : nat * string) : list string :=
  let '(i, arg) := ia in
  if negb (startswith arg "--") then fixed_args
  else
    let option_and_value := slice step_args i (i + 2) in
    let is_correct_category := eqb (is_fixed arg) get_fixed in
    if is_correct_category then fixed_args ++ option_and_value
    else fixed_args.

Definition get_fixed_step_args (step_args : list string) (get_fixed : bool)
    : list string :=
  foldl (codec_step step_args get_fixed) [] (enumerate step_args).

Definition get_step_specific_args (step_args : list string) : list string :=
  get_fixed_step_args step_args false.

(** What the element heading [l] contributes: itself and its successor when it
    carries the marker and is of the wanted category, nothing otherwise. *)
Definition chunk (get_fixed : bool) (l : list string) : list string :=
  match l with
  | [] => []
  | arg :: _ =>
      if startswith arg "--" && eqb (is_fixed arg) get_fixed then take 2 l
      else []
  end.

(** The loop as a recursion on the suffixes of the argument list. *)
Fixpoint scan (get_fixed : bool) (l : list string) : list string :=
  match l with
  | [] => []
  | _ :: tl => chunk get_fixed l ++ scan get_fixed tl
  end.

(** Pair-wise reading of an argument list, after the parsing rule of the
    specification: an element carrying the marker is a key and the element
    after it is its value, both consumed together, so that the value is not
    looked at again.  An element without marker in key position is passed
    over.  A last key without a value is handed to [take 2] like the others. *)
Fixpoint consume_pairs (get_fixed : bool) (l : list string) : list string :=
  match l with
  | [] => []
  | key :: rest =>
      if startswith key "--" then
        (if eqb (is_fixed key) get_fixed then take 2 l else []) ++
        match rest with
        | [] => []
        | _ :: rest' => consume_pairs get_fixed rest'
        end
      else consume_pairs get_fixed rest
  end.

(** No element in value position carries the marker. *)
Fixpoint values_unmarked (l : list string) : bool :=
  match l with
  | [] => true
  | key :: rest =>
      if startswith key "--" then
        match rest with
        | [] => true
        | value :: rest' => negb (startswith value "--") && values_unmarked rest'
        end
      else values_unmarked rest
  end.

(** The argument list is a sequence of (key, value) pairs, keys with and
    values without the marker, possibly followed by one key without value. *)
Fixpoint well_formed (l : list string) : bool :=
  match l with
  | [] => true
  | key :: rest =>
      startswith key "--" &&
      match rest with
      | [] => true
      | value :: rest' => negb (startswith value "--") && well_formed rest'
      end
  end.

(** The input without a last key that has no value, the pairs being read as
    in [consume_pairs]. *)
Fixpoint without_trailing_key (l : list string) : list string :=
  match l with
  | [] => []
  | key :: rest =>
      if startswith key "--" then
        match rest with
        | [] => []
        | value :: rest' => key :: value :: without_trailing_key rest'
        end
      else key :: without_trailing_key rest
  end.

(** The argument list is a sequence of (key, value) pairs and nothing else:
    keys with the marker, values without, no key left without value. *)
Fixpoint complete_pairs (l : list string) : bool :=
  match l with
  | [] => true
  | key :: rest =>
      startswith key "--" &&
      match rest with
      | [] => false
      | value :: rest' => negb (startswith value "--") && complete_pairs rest'
      end
  end.

End ArgumentCodec.

(** The only exception the module raises itself. *)
Inductive exn : Type :=
| IndexError (msg : string).

(** [l[i]], which raises [IndexError] out of range. *)
Definition getitem {A} (l : list A) (i : nat) : exn + A :=
  match l !! i with
  | Some x => inr x
  | None => inl (IndexError "list index out of range")
  end.

(** What the builder takes from outside this module: the step objects, the
    step entrypoint configuration of
    [kubernetes_step_entrypoint_configuration] with its [RUN_NAME_OPTION], the
    option names of [zenml.entrypoints.step_entrypoint_configuration], and
    [json.dumps].  None of them is part of the sources at hand. *)
Class Collaborators : Type := {
  BaseStep : Type;
  Pb2Pipeline : Type;
  name : BaseStep -> string;
  RUN_NAME_OPTION : string;
  STEP_SPECIFIC_STEP_ENTRYPOINT_OPTIONS : list string;
  step_entrypoint_command : list string;
  step_entrypoint_arguments : BaseStep -> Pb2Pipeline -> string -> list string;
  json_dumps : json -> string
}.

Section LaunchPlanBuilder.

Context `{Collaborators}.

(** The [pipeline_config] dictionary of [get_entrypoint_arguments], as the
    document handed to [json.dumps]. *)
Definition pipeline_config (run_name : string) (pb2_pipeline : Pb2Pipeline)
    (sorted_steps : list BaseStep) (step_dependencies : dict (list string))
    : exn + json :=
  let _get_step_args (step : BaseStep) : list string :=
    step_entrypoint_arguments step pb2_pipeline run_name in
  let step_names := name <$> sorted_steps in
  let step_command := step_entrypoint_command in
  match getitem sorted_steps 0 with
  | inl e => inl e
  | inr first =>
      let fixed_step_args :=
        get_fixed_step_args STEP_SPECIFIC_STEP_ENTRYPOINT_OPTIONS
          (_get_step_args first) true in
      let step_specific_args :=
        dict_comprehension name
          (fun step =>
             get_step_specific_args STEP_SPECIFIC_STEP_ENTRYPOINT_OPTIONS
               (_get_step_args step))
          sorted_steps in
      inr (JObject [
        ("sorted_steps", json_strs step_names);
        ("step_command", json_strs step_command);
        ("fixed_step_args", json_strs fixed_step_args);
        ("step_specific_args", json_dict step_specific_args);
        ("step_dependencies", json_dict step_dependencies)])
  end.

Definition get_entrypoint_arguments (run_name pipeline_name image_name
    kubernetes_namespace : string) (pb2_pipeline : Pb2Pipeline)
    (sorted_steps : list BaseStep) (step_dependencies : dict (list string))
    : exn + list string :=
  match pipeline_config run_name pb2_pipeline sorted_steps step_dependencies with
  | inl e => inl e
  | inr config =>
      let pipeline_config_json := json_dumps config in
      inr [
        "--" +:+ RUN_NAME_OPTION; run_name;
        "--" +:+ PIPELINE_NAME_OPTION; pipeline_name;
        "--" +:+ IMAGE_NAME_OPTION; image_name;
        "--" +:+ NAMESPACE_OPTION; kubernetes_namespace;
        "--" +:+ PIPELINE_CONFIG_OPTION; pipeline_config_json]
  end.

(** A step of [step_dependencies] names a step that is not in the list. *)
Definition dangling_reference (sorted_steps : list BaseStep)
    (step_dependencies : dict (list string)) : Prop :=
  exists upstream, upstream ∈ concat step_dependencies.*2 /\
    upstream ∉ name <$> sorted_steps.

Definition get_entrypoint_options : gset string :=
  {[ RUN_NAME_OPTION; PIPELINE_NAME_OPTION; IMAGE_NAME_OPTION;
     NAMESPACE_OPTION; PIPELINE_CONFIG_OPTION ]}.

Definition get_entrypoint_command : list string :=
  ["python"; "-m";
   "zenml.integrations.kubernetes.orchestrators.kubernetes_orchestrator_entrypoint"].

End LaunchPlanBuilder.

End KubernetesOrchestratorEntrypoint.

(** ** The GCP artifact store *)

Module GCPArtifactStore.

(** [FileExistsError] is what the store raises itself; [Raised e] is an
    exception coming out of credential resolution or of the [gcsfs] file
    system. *)
Inductive exn (E : Type) : Type :=
| FileExistsError (msg : string)
| Raised (e : E).
Arguments FileExistsError {E} msg.
Arguments Raised {E} e.

(** What the store takes from outside: [convert_to_str] of
    [zenml.utils.io_utils], the secret of [AuthenticationMixin], and the part
    of [gcsfs.GCSFileSystem] its methods call.  [Storage] is the state of the
    remote buckets.  Queries read it, commands return the new state together
    with their outcome, and may fail half way. *)
Class Backend : Type := {
  PathType : Type;
  convert_to_str : PathType -> string;
  Err : Type;
  Secret : Type;
  Token : Type;
  get_authentication_secret : Err + option Secret;
  get_credential_dict : Secret -> Token;
  GCSFileSystem : Type;
  new_GCSFileSystem : option Token -> GCSFileSystem;
  Storage : Type;
  fs_exists : GCSFileSystem -> PathType -> Storage -> Err + bool;
  fs_cat_file : GCSFileSystem -> PathType -> Storage -> Err + list Byte.byte;
  fs_copy : GCSFileSystem -> PathType -> PathType -> Storage ->
            (Err + unit) * Storage;
  fs_rename : GCSFileSystem -> PathType -> PathType -> Storage ->
              (Err + unit) * Storage;
  fs_makedirs : GCSFileSystem -> PathType -> bool -> Storage ->
                (Err + unit) * Storage
}.

Section Store.

Context `{Backend}.

(** The store object, with its cached file system, and the storage it
    talks to. *)
Record state : Type := State {
  _filesystem : option GCSFileSystem;
  storage : Storage
}.

(** Methods run on a state and end with a value or an exception. *)
Definition M (A : Type) : Type := state -> (exn Err + A) * state.

#[export] Instance M_ret : MRet M := fun A (a : A) st => (inr a, st).

#[export] Instance M_bind : MBind M := fun A B (k : A -> M B) (c : M A) st =>
  match c st with
  | (inl e, st') => (inl e, st')
  | (inr a, st') => k a st'
  end.

Definition raise {A} (e : exn Err) : M A := fun st => (inl e, st).

(** A call that reads the storage. *)
Definition query {A} (q : Storage -> Err + A) : M A := fun st =>
  match q (storage st) with
  | inl e => (inl (Raised e), st)
  | inr a => (inr a, st)
  end.

(** A call that changes the storage. *)
Definition command {A} (c : Storage -> (Err + A) * Storage) : M A := fun st =>
  let '(r, s') := c (storage st) in
  let st' := State (_filesystem st) s' in
  match r with
  | inl e => (inl (Raised e), st')
  | inr a => (inr a, st')
  end.

(** [a and b], where [b] is only evaluated when [a] holds. *)
Definition and_then (a : bool) (b : M bool) : M bool :=
  if a then b else mret false.

(** The [filesystem] property. *)
Definition filesystem : M GCSFileSystem := fun st =>
  match _filesystem st with
  | Some fs => (inr fs, st)
  | None =>
      match get_authentication_secret with
      | inl e => (inl (Raised e), st)
      | inr secret =>
          let token := get_credential_dict <$> secret in
          let fs := new_GCSFileSystem token in
          (inr fs, State (Some fs) (storage st))
      end
  end.

Definition copyfile (src dst : PathType) (overwrite : bool) : M unit :=
  blocked ← and_then (negb overwrite)
              (fs ← filesystem; query (fs_exists fs dst));
  if (blocked : bool) then
    raise (FileExistsError
      ("Unable to copy to destination '" +:+ convert_to_str dst +:+
       "', file already exists. Set `overwrite=True` to copy anyway."))
  else
    fs ← filesystem; command (fs_copy fs src dst).

(** [exists] *)
Definition exists_ (path : PathType) : M bool :=
  fs ← filesystem; query (fs_exists fs path).

Definition makedirs (path : PathType) : M unit :=
  fs ← filesystem; command (fs_makedirs fs path true).

Definition rename (src dst : PathType) (overwrite : bool) : M unit :=
  blocked ← and_then (negb overwrite)
              (fs ← filesystem; query (fs_exists fs dst));
  if (blocked : bool) then
    raise (FileExistsError
      ("Unable to rename file to '" +:+ convert_to_str dst +:+
       "', file already exists. Set `overwrite=True` to rename anyway."))
  else
    fs ← filesystem; command (fs_rename fs src dst).

(** The contract of the specification for the backend calls behind
    [copyfile] and [makedirs]: a copy that succeeds leaves at the destination
    the bytes the source had, and [makedirs] with [exist_ok] makes its target
    exist and leaves an existing target alone. *)
Class BackendContract : Prop := {
  copy_content : forall fs src dst s s',
    fs_copy fs src dst s = (inr (), s') ->
    exists data, fs_cat_file fs src s = inr data /\
                 fs_cat_file fs dst s' = inr data;
  makedirs_exists : forall fs path s s',
    fs_makedirs fs path true s = (inr (), s') ->
    fs_exists fs path s' = inr true;
  makedirs_exist_ok : forall fs path s,
    fs_exists fs path s = inr true ->
    fs_makedirs fs path true s = (inr (), s)
}.

End Store.

(** The other calls of [gcsfs.GCSFileSystem] the store makes.  What [open],
    [stat] and [walk] hand back is left to the backend. *)
Class BackendExtra `{Backend} : Type := {
  FileObject : Type;
  StatResult : Type;
  WalkResult : Type;
  OnError : Type;
  fs_open : GCSFileSystem -> PathType -> string -> Storage ->
            (Err + FileObject) * Storage;
  fs_glob : GCSFileSystem -> PathType -> Storage -> Err + list PathType;
  fs_isdir : GCSFileSystem -> PathType -> Storage -> Err + bool;
  fs_listdir : GCSFileSystem -> PathType -> Storage -> Err + list PathType;
  fs_makedir : GCSFileSystem -> PathType -> Storage -> (Err + unit) * Storage;
  fs_rm_file : GCSFileSystem -> PathType -> Storage -> (Err + unit) * Storage;
  fs_delete : GCSFileSystem -> PathType -> bool -> Storage ->
              (Err + unit) * Storage;
  fs_stat : GCSFileSystem -> PathType -> Storage -> Err + StatResult;
  fs_walk : GCSFileSystem -> PathType -> Storage -> Err + WalkResult
}.

Section OtherMethods.

Context `{BackendExtra}.

(** [open] *)
Definition open (path : PathType) (mode : string) : M FileObject :=
  fs ← filesystem; command (fs_open fs path mode).

Definition glob (pattern : PathType) : M (list PathType) :=
  fs ← filesystem; query (fs_glob fs pattern).

Definition isdir (path : PathType) : M bool :=
  fs ← filesystem; query (fs_isdir fs path).

Definition listdir (path : PathType) : M (list PathType) :=
  fs ← filesystem; query (fs_listdir fs path).

Definition mkdir (path : PathType) : M unit :=
  fs ← filesystem; command (fs_makedir fs path).

Definition remove (path : PathType) : M unit :=
  fs ← filesystem; command (fs_rm_file fs path).

Definition rmtree (path : PathType) : M unit :=
  fs ← filesystem; command (fs_delete fs path true).

Definition stat (path : PathType) : M StatResult :=
  fs ← filesystem; query (fs_stat fs path).

(** [topdown] and [onerror] are accepted and not used. *)
Definition walk (top : PathType) (topdown : bool) (onerror : option OnError)
    : M WalkResult :=
  fs ← filesystem; query (fs_walk fs top).

(** A call of a method of the store, with its arguments. *)
Inductive call : Type -> Type :=
| Open (path : PathType) (mode : string) : call FileObject
| CopyFile (src dst : PathType) (overwrite : bool) : call unit
| Exists (path : PathType) : call bool
| Glob (pattern : PathType) : call (list PathType)
| IsDir (path : PathType) : call bool
| ListDir (path : PathType) : call (list PathType)
| MakeDirs (path : PathType) : call unit
| MkDir (path : PathType) : call unit
| Remove (path : PathType) : call unit
| Rename (src dst : PathType) (overwrite : bool) : call unit
| RmTree (path : PathType) : call unit
| Stat (path : PathType) : call StatResult
| Walk (top : PathType) (topdown : bool) (onerror : option OnError)
    : call WalkResult.

Definition run {A} (c : call A) : M A :=
  match c with
  | Open path mode => open path mode
  | CopyFile src dst overwrite => copyfile src dst overwrite
  | Exists path => exists_ path
  | Glob pattern => glob pattern
  | IsDir path => isdir path
  | ListDir path => listdir path
  | MakeDirs path => makedirs path
  | MkDir path => mkdir path
  | Remove path => remove path
  | Rename src dst overwrite => rename src dst overwrite
  | RmTree path => rmtree path
  | Stat path => stat path
  | Walk top topdown onerror => walk top topdown onerror
  end.

(** The call is a [copyfile] or a [rename] onto [dst] without [overwrite]. *)
Definition guarded_onto {A} (c : call A) (dst : PathType) : Prop :=
  match c with
  | CopyFile _ dst' false | Rename _ dst' false => dst' = dst
  | _ => False
  end.

End OtherMethods.

End GCPArtifactStore.

(** ** Instances used to run the definitions on examples *)

(** The scenario of the specification: steps named by a string, every step
    called with the run name, an image and its own source. *)
Module Scenario.
Import Py KubernetesOrchestratorEntrypoint.

(** The option names as ZenML's step entrypoint configuration defines them;
    the scenario of the specification uses [--step_source]. *)
Definition step_specific_options : list string :=
  ["step_source"; "input_artifact_sources"; "materializer_sources"].

Definition quote : string := String (ascii_of_nat 34) EmptyString.

Definition hex_digit (n : nat) : ascii :=
  ascii_of_nat (if Nat.ltb n 10 then 48 + n else 87 + n).

(** One character of a string literal as [json.dumps] writes it with its
    default [ensure_ascii=True]; a character stands for the code point of
    the same number. *)
Definition escape_char (c : ascii) : string :=
  let n := nat_of_ascii c in
  if Nat.eqb n 34 then "\" +:+ quote
  else if Nat.eqb n 92 then "\\"
  else if Nat.eqb n 10 then "\n"
  else if Nat.eqb n 13 then "\r"
  else if Nat.eqb n 9 then "\t"
  else if Nat.eqb n 8 then "\b"
  else if Nat.eqb n 12 then "\f"
  else if Nat.leb 32 n && Nat.leb n 126 then String c EmptyString
  else "\u00" +:+ String (hex_digit (n / 16)) (String (hex_digit (n mod 16)) EmptyString).

Fixpoint escape (s : string) : string :=
  match s with
  | EmptyString => EmptyString
  | String c s' => escape_char c +:+ escape s'
  end.

Definition json_string (s : string) : string := quote +:+ escape s +:+ quote.

(** [json.dumps] with its default separators. *)
Fixpoint dumps (j : json) : string :=
  match j with
  | JString s => json_string s
  | JArray l => "[" +:+ String.concat ", " (map dumps l) +:+ "]"
  | JObject fields =>
      "{" +:+
      String.concat ", "
        (map (fun kv => let '(k, v) := kv in json_string k +:+ ": " +:+ dumps v)
             fields) +:+
      "}"
  end.

#[export] Instance collaborators : Collaborators := {|
  BaseStep := string;
  Pb2Pipeline := unit;
  name := fun step => step;
  RUN_NAME_OPTION := "run_name";
  STEP_SPECIFIC_STEP_ENTRYPOINT_OPTIONS := step_specific_options;
  step_entrypoint_command :=
    ["python"; "-m";
     "zenml.integrations.kubernetes.orchestrators.kubernetes_step_entrypoint"];
  step_entrypoint_arguments := fun step _ run_name =>
    ["--run_name"; run_name; "--image"; "img1";
     "--step_source"; step +:+ ".step"];
  json_dumps := dumps
|}.

End Scenario.

(** A storage kept in memory: objects under their keys and the directories
    made so far.  A path is a bucket followed by the segments of the key. *)
Module MemoryBackend.
Import GCPArtifactStore.

Record memory : Type := Memory {
  objects : gmap (list string) (list Byte.byte);
  directories : gset (list string)
}.

Definition present (path : list string) (s : memory) : bool :=
  bool_decide (is_Some (objects s !! path)) || bool_decide (path ∈ directories s).

(** The path and the paths above it, the bucket first. *)
Definition chain (path : list string) : list (list string) :=
  (fun n => take n path) <$> seq 1 (length path).

Definition mem_copy (src dst : list string) (s : memory)
    : (string + unit) * memory :=
  match objects s !! src with
  | Some data => (inr (), Memory (<[dst := data]> (objects s)) (directories s))
  | None => (inl "FileNotFoundError", s)
  end.

Definition mem_rename (src dst : list string) (s : memory)
    : (string + unit) * memory :=
  match objects s !! src with
  | Some data =>
      (inr (), Memory (<[dst := data]> (delete src (objects s))) (directories s))
  | None => (inl "FileNotFoundError", s)
  end.

Definition mem_makedirs (path : list string) (exist_ok : bool) (s : memory)
    : (string + unit) * memory :=
  if present path s then
    if exist_ok then (inr (), s) else (inl "FileExistsError", s)
  else
    (inr (), Memory (objects s) (directories s ∪ list_to_set (path :: chain path))).

#[export] Instance backend : Backend := {|
  PathType := list string;
  convert_to_str := fun path => "gs://" +:+ String.concat "/" path;
  Err := string;
  Secret := unit;
  Token := unit;
  get_authentication_secret := inr None;
  get_credential_dict := fun secret => secret;
  GCSFileSystem := option unit;
  new_GCSFileSystem := fun token => token;
  Storage := memory;
  fs_exists := fun _ path s => inr (present path s);
  fs_cat_file := fun _ path s =>
    match objects s !! path with
    | Some data => inr data
    | None => inl "FileNotFoundError"
    end;
  fs_copy := fun _ => mem_copy;
  fs_rename := fun _ => mem_rename;
  fs_makedirs := fun _ => mem_makedirs
|}.

Definition mem_makedir (path : list string) (s : memory)
    : (string + unit) * memory :=
  if present path s then (inl "FileExistsError", s)
  else (inr (), Memory (objects s) (directories s ∪ {[ path ]})).

Definition mem_rm_file (path : list string) (s : memory)
    : (string + unit) * memory :=
  match objects s !! path with
  | Some _ => (inr (), Memory (delete path (objects s)) (directories s))
  | None => (inl "FileNotFoundError", s)
  end.

(** Only what the examples need is there; the other calls answer as a file
    system that does not provide them. *)
#[export] Instance backend_extra : BackendExtra := {|
  FileObject := list Byte.byte;
  StatResult := unit;
  WalkResult := unit;
  OnError := unit;
  fs_open := fun _ _ _ s => (inl "NotImplementedError", s);
  fs_glob := fun _ _ _ => inl "NotImplementedError";
  fs_isdir := fun _ path s => inr (bool_decide (path ∈ directories s));
  fs_listdir := fun _ _ _ => inl "NotImplementedError";
  fs_makedir := fun _ => mem_makedir;
  fs_rm_file := fun _ => mem_rm_file;
  fs_delete := fun _ _ _ s => (inl "NotImplementedError", s);
  fs_stat := fun _ _ _ => inl "NotImplementedError";
  fs_walk := fun _ _ _ => inl "NotImplementedError"
|}.

(** A bucket [b] with the objects [x] and [y]. *)
Definition two_objects : Storage :=
  Memory {[ ["b"; "x"] := [Byte.x61]; ["b"; "y"] := [Byte.x62] ]} ∅.

(** The store before its first call, and once it holds its file system. *)
Definition fresh : state := State None two_objects.

Definition connected : state :=
  State (Some (new_GCSFileSystem None)) two_objects.

(** The bucket once [x] has been copied onto [y]. *)
Definition two_copies : Storage :=
  Memory {[ ["b"; "x"] := [Byte.x61]; ["b"; "y"] := [Byte.x61] ]} ∅.

(** The store once the directory [d/e] has been made in the bucket. *)
Definition with_directories : state :=
  State (Some (new_GCSFileSystem None))
    (Memory {[ ["b"; "x"] := [Byte.x61]; ["b"; "y"] := [Byte.x62] ]}
       {[ ["b"; "d"; "e"]; ["b"]; ["b"; "d"] ]}).

(** The bucket once [x] has been renamed to [y]. *)
Definition renamed : Storage :=
  Memory {[ ["b"; "y"] := [Byte.x61] ]} ∅.

End MemoryBackend.

(** A backend that cannot be reached: every call fails.  The outcome of the
    credential resolution is chosen by the example. *)
Module UnreachableBackend.
Import GCPArtifactStore.

Definition unreachable (secret : string + option unit) : Backend := {|
  PathType := string;
  convert_to_str := fun path => path;
  Err := string;
  Secret := unit;
  Token := unit;
  get_authentication_secret := secret;
  get_credential_dict := fun secret => secret;
  GCSFileSystem := option unit;
  new_GCSFileSystem := fun token => token;
  Storage := unit;
  fs_exists := fun _ _ _ => inl "ConnectionError";
  fs_cat_file := fun _ _ _ => inl "ConnectionError";
  fs_copy := fun _ _ _ s => (inl "ConnectionError", s);
  fs_rename := fun _ _ _ s => (inl "ConnectionError", s);
  fs_makedirs := fun _ _ _ s => (inl "ConnectionError", s)
|}.

Definition unreachable_extra (secret : string + option unit)
    : @BackendExtra (unreachable secret) :=
  @Build_BackendExtra (unreachable secret) unit unit unit unit
    (fun _ _ _ s => (inl "ConnectionError", s))
    (fun _ _ _ => inl "ConnectionError")
    (fun _ _ _ => inl "ConnectionError")
    (fun _ _ _ => inl "ConnectionError")
    (fun _ _ s => (inl "ConnectionError", s))
    (fun _ _ s => (inl "ConnectionError", s))
    (fun _ _ _ s => (inl "ConnectionError", s))
    (fun _ _ _ => inl "ConnectionError")
    (fun _ _ _ => inl "ConnectionError").

(** A store that has not made its file system yet. *)
Definition unused (secret : string + option unit)
    : @state (unreachable secret) :=
  @State (unreachable secret) None ().

(** The same store once it holds its file system. *)
Definition used (secret : string + option unit)
    : @state (unreachable secret) :=
  @State (unreachable secret) (Some None) ().

End UnreachableBackend.

(** * Properties *)

(** ** The argument codec *)

Section CodecFacts.
Import Py KubernetesOrchestratorEntrypoint.

Variable options : list string.

Local Open Scope list_scope.

Lemma slice_at {A} (pre l : list A) :
  slice (pre ++ l) (length pre) (length pre + 2) = take 2 l.
Proof.
  unfold slice. rewrite drop_app_length.
  replace (length pre + 2 - length pre) with 2 by lia. reflexivity.
Qed.

Lemma codec_step_chunk pre l arg get_fixed acc :
  codec_step options (pre ++ arg :: l) get_fixed acc (length pre, arg) =
  acc ++ chunk options get_fixed (arg :: l).
Proof.
  unfold codec_step, chunk. rewrite slice_at.
  destruct (startswith arg "--"); simpl; [|by rewrite app_nil_r].
  destruct (eqb _ _); [done | by rewrite app_nil_r].
Qed.

(** The loop, started in the middle of the list. *)
Lemma foldl_codec_step get_fixed l : forall pre acc,
  foldl (codec_step options (pre ++ l) get_fixed) acc
        (imap (fun i x => (length pre + i, x)) l) =
  acc ++ scan options get_fixed l.
Proof.
  induction l as [|arg l IH]; intros pre acc.
  - simpl. by rewrite app_nil_r.
  - cbn [imap foldl scan]. rewrite Nat.add_0_r, codec_step_chunk.
    specialize (IH (pre ++ [arg]) (acc ++ chunk options get_fixed (arg :: l))).
    rewrite <- (app_assoc pre [arg] l) in IH. cbn [app] in IH.
    rewrite app_assoc, <- IH. f_equal.
    apply imap_ext. intros i x _. simpl. rewrite length_app. simpl. f_equal. lia.
Qed.

Lemma get_fixed_step_args_scan step_args get_fixed :
  get_fixed_step_args options step_args get_fixed = scan options get_fixed step_args.
Proof.
  unfold get_fixed_step_args, enumerate.
  apply (foldl_codec_step get_fixed step_args [] []).
Qed.

Lemma chunk_unmarked get_fixed arg l :
  startswith arg "--" = false -> chunk options get_fixed (arg :: l) = [].
Proof. intros Harg. unfold chunk. by rewrite Harg. Qed.

Lemma chunk_marked get_fixed arg l :
  startswith arg "--" = true ->
  chunk options get_fixed (arg :: l) =
  if eqb (is_fixed options arg) get_fixed then take 2 (arg :: l) else [].
Proof. intros Harg. unfold chunk. by rewrite Harg. Qed.

Lemma scan_consume_pairs get_fixed l :
  values_unmarked l = true ->
  scan options get_fixed l = consume_pairs options get_fixed l.
Proof.
  remember (length l) as n eqn:Hn. revert l Hn.
  induction n as [n IH] using lt_wf_ind. intros l Hn Hl.
  destruct l as [|key rest]; [done|].
  cbn [scan consume_pairs values_unmarked] in *.
  destruct (startswith key "--") eqn:Hkey.
  - rewrite (chunk_marked _ _ _ Hkey).
    destruct rest as [|value rest']; [done|].
    apply andb_true_iff in Hl as [Hvalue Hrest]. apply negb_true_iff in Hvalue.
    cbn [scan]. rewrite (chunk_unmarked _ _ _ Hvalue), app_nil_l.
    f_equal. apply (IH (length rest')); [simpl in Hn; lia | done | done].
  - rewrite (chunk_unmarked _ _ _ Hkey). simpl.
    apply (IH (length rest)); [simpl in Hn; lia | done | done].
Qed.

Lemma chunk_both arg l :
  startswith arg "--" = true ->
  chunk options true (arg :: l) ++ chunk options false (arg :: l) = take 2 (arg :: l).
Proof.
  intros Harg. rewrite !chunk_marked by done.
  destruct (is_fixed options arg); simpl; [by rewrite app_nil_r | done].
Qed.

Lemma scan_partition l :
  well_formed l = true ->
  scan options true l ++ scan options false l ≡ₚ l.
Proof.
  remember (length l) as n eqn:Hn. revert l Hn.
  induction n as [n IH] using lt_wf_ind. intros l Hn Hl.
  destruct l as [|key rest]; [done|].
  cbn [well_formed] in Hl. apply andb_true_iff in Hl as [Hkey Hrest].
  destruct rest as [|value rest'].
  - cbn [scan]. rewrite !app_nil_r. by rewrite chunk_both.
  - apply andb_true_iff in Hrest as [Hvalue Hrest]. apply negb_true_iff in Hvalue.
    cbn [scan]. rewrite !(chunk_unmarked _ value) by done. rewrite !app_nil_l.
    assert (scan options true rest' ++ scan options false rest' ≡ₚ rest') as Hperm.
    { apply (IH (length rest')); [simpl in Hn; lia | done | done]. }
    rewrite <- app_assoc.
    rewrite (app_assoc (scan options true rest')).
    rewrite (Permutation_app_comm (scan options true rest')).
    rewrite <- app_assoc, app_assoc, chunk_both by done.
    rewrite Hperm. done.
Qed.

Lemma scan_last get_fixed pre key :
  exists r, scan options get_fixed (pre ++ [key]) =
            r ++ chunk options get_fixed [key].
Proof.
  induction pre as [|arg pre [r IH]].
  - exists []. simpl. by rewrite app_nil_r.
  - exists (chunk options get_fixed (arg :: pre ++ [key]) ++ r).
    cbn [app scan]. fold (pre ++ [key]). rewrite IH. by rewrite app_assoc.
Qed.

(** C1 (as amended): every element that begins with the marker, wherever it
    stands, contributes itself and the element after it to the partition of
    its category, and the other elements contribute nothing of their own; so
    an element in value position is classified as a key exactly when it
    begins with the marker itself.  On every argument list whose values do
    not begin with ["--"], the codec is the pair-wise reading. *)
Theorem codec_reads_pairs_when_values_unmarked step_args get_fixed :
  get_fixed_step_args options step_args get_fixed =
    scan options get_fixed step_args /\
  (values_unmarked step_args = true ->
   get_fixed_step_args options step_args get_fixed =
     consume_pairs options get_fixed step_args).
Proof.
  split; [apply get_fixed_step_args_scan|].
  intros Hvalues. rewrite get_fixed_step_args_scan.
  by apply scan_consume_pairs.
Qed.

(** C2 (as amended): on an argument list made of pairs of a key with the
    marker and a value without it, possibly followed by one key without
    value, the two partitions together hold exactly the elements of the
    input, the unmatched last key included. *)
Theorem partitions_cover_well_formed_input step_args :
  well_formed step_args = true ->
  get_fixed_step_args options step_args true ++ get_step_specific_args options step_args ≡ₚ step_args.
Proof.
  intros Hwf. unfold get_step_specific_args.
  rewrite !get_fixed_step_args_scan. by apply scan_partition.
Qed.

(** C3 (as amended): a key that ends the argument list without a value is
    not dropped; the codec returns normally and the key closes the partition
    of its category. *)
Theorem trailing_key_closes_its_partition pre key :
  startswith key "--" = true ->
  exists r, get_fixed_step_args options (pre ++ [key]) (is_fixed options key) = r ++ [key].
Proof.
  intros Hkey. rewrite get_fixed_step_args_scan.
  destruct (scan_last (is_fixed options key) pre key) as [r Hr].
  exists r. rewrite Hr, chunk_marked by done. by rewrite eqb_reflx.
Qed.

End CodecFacts.

(** *** The codec on concrete argument lists *)

Section CodecExamples.
Import Py KubernetesOrchestratorEntrypoint.
Local Open Scope list_scope.

(** Witness of C1: a list of two pairs and a stray value. *)
Lemma codec_reads_pairs_witness :
  values_unmarked ["--run_name"; "run1"; "stray"; "--step_source"; "A.step"] = true /\
  get_fixed_step_args Scenario.step_specific_options
    ["--run_name"; "run1"; "stray"; "--step_source"; "A.step"] true =
  consume_pairs Scenario.step_specific_options true
    ["--run_name"; "run1"; "stray"; "--step_source"; "A.step"].
Proof.
  split; [reflexivity|].
  apply (codec_reads_pairs_when_values_unmarked Scenario.step_specific_options).
  reflexivity.
Defined.

(** Counterexample to C1 as stated: ["--b"] stands in value position, after
    the key ["--a"], and is classified as a key of its own all the same: it
    is emitted a second time, with ["c"] as its value. *)
Lemma marked_value_is_classified_as_key :
  get_fixed_step_args Scenario.step_specific_options ["--a"; "--b"; "c"] true =
    ["--a"; "--b"; "--b"; "c"] /\
  get_fixed_step_args Scenario.step_specific_options ["--a"; "--b"; "c"] true <>
    consume_pairs Scenario.step_specific_options true ["--a"; "--b"; "c"].
Proof. split; [reflexivity | discriminate]. Qed.

(** Witness of C2: the argument list of a step, with an unmatched last key. *)
Lemma partitions_cover_witness :
  well_formed ["--run_name"; "run1"; "--step_source"; "A.step"; "--image"] = true /\
  get_fixed_step_args Scenario.step_specific_options
    ["--run_name"; "run1"; "--step_source"; "A.step"; "--image"] true ++
  get_step_specific_args Scenario.step_specific_options
    ["--run_name"; "run1"; "--step_source"; "A.step"; "--image"] ≡ₚ
  ["--run_name"; "run1"; "--step_source"; "A.step"; "--image"].
Proof.
  split; [reflexivity|].
  apply (partitions_cover_well_formed_input Scenario.step_specific_options).
  reflexivity.
Defined.

(** Counterexample to C2 as stated: the unmatched last key ["--a"] is in the
    invariant partition, so the partitions are not the input without it; and
    the stray value ["x"] is in neither partition although it is no trailing
    key. *)
Lemma partitions_differ_from_input_without_trailing_key :
  ~ (get_fixed_step_args Scenario.step_specific_options ["--a"] true ++
     get_step_specific_args Scenario.step_specific_options ["--a"] ≡ₚ
     without_trailing_key ["--a"]) /\
  ~ (get_fixed_step_args Scenario.step_specific_options ["x"; "--a"; "b"] true ++
     get_step_specific_args Scenario.step_specific_options ["x"; "--a"; "b"] ≡ₚ
     without_trailing_key ["x"; "--a"; "b"]).
Proof.
  split; intros Hperm; apply Permutation_length in Hperm; discriminate.
Qed.

(** Witness of C3. *)
Lemma trailing_key_witness :
  startswith "--step_source" "--" = true /\
  exists r,
    get_fixed_step_args Scenario.step_specific_options
      (["--run_name"; "run1"] ++ ["--step_source"])
      (is_fixed Scenario.step_specific_options "--step_source") =
    r ++ ["--step_source"].
Proof.
  split; [reflexivity|].
  apply (trailing_key_closes_its_partition Scenario.step_specific_options).
  reflexivity.
Defined.

(** Counterexample to C3 as stated: the key that ends the list is in the
    invariant partition. *)
Lemma trailing_key_is_kept :
  ~ (("--a" ∉ get_fixed_step_args Scenario.step_specific_options ["--a"] true) /\
     ("--a" ∉ get_step_specific_args Scenario.step_specific_options ["--a"])).
Proof. intros [Hfixed _]. apply Hfixed. vm_compute. left. Qed.

End CodecExamples.

(** ** The launch plan builder *)

Section DictFacts.
Import Py.
Local Open Scope list_scope.

Lemma keys_dict_set {V} (k k' : string) (v : V) (d : dict V) :
  k' ∈ keys (dict_set k v d) <-> k' = k \/ k' ∈ keys d.
Proof.
  unfold keys. induction d as [|[k0 v0] d IH]; simpl.
  - rewrite !elem_of_cons, elem_of_nil. tauto.
  - destruct (decide (k = k0)) as [->|Hne]; simpl.
    + rewrite !elem_of_cons. tauto.
    + rewrite !elem_of_cons, IH. tauto.
Qed.

Lemma keys_foldl_dict_set {A V} (key : A -> string) (value : A -> V) l :
  forall (d : dict V) k,
    k ∈ keys (foldl (fun d x => dict_set (key x) (value x) d) d l) <->
    k ∈ keys d \/ k ∈ key <$> l.
Proof.
  induction l as [|x l IH]; intros d k; simpl.
  - rewrite elem_of_nil. tauto.
  - rewrite IH, keys_dict_set, elem_of_cons. tauto.
Qed.

Lemma keys_dict_comprehension {A V} (key : A -> string) (value : A -> V) l k :
  k ∈ keys (dict_comprehension key value l) <-> k ∈ key <$> l.
Proof.
  unfold dict_comprehension. rewrite keys_foldl_dict_set.
  unfold keys. simpl. rewrite elem_of_nil. tauto.
Qed.

End DictFacts.

Section BuilderFacts.
Import Py KubernetesOrchestratorEntrypoint.
Local Open Scope list_scope.

Context `{Collaborators}.

(** The document of a step list that is not empty. *)
Lemma pipeline_config_cons run_name pb2_pipeline first steps step_dependencies :
  pipeline_config run_name pb2_pipeline (first :: steps) step_dependencies =
  inr (JObject [
    ("sorted_steps", json_strs (name <$> first :: steps));
    ("step_command", json_strs step_entrypoint_command);
    ("fixed_step_args",
     json_strs (get_fixed_step_args STEP_SPECIFIC_STEP_ENTRYPOINT_OPTIONS
                  (step_entrypoint_arguments first pb2_pipeline run_name) true));
    ("step_specific_args",
     json_dict (dict_comprehension name
       (fun step => get_step_specific_args STEP_SPECIFIC_STEP_ENTRYPOINT_OPTIONS
                      (step_entrypoint_arguments step pb2_pipeline run_name))
       (first :: steps)));
    ("step_dependencies", json_dict step_dependencies)]).
Proof. reflexivity. Qed.

(** C4: for a step list that is not empty the builder returns a launch plan;
    its [sorted_steps] has as many entries as there are steps, and the keys of
    its [step_specific_args] are exactly the entries of [sorted_steps]. *)
Theorem launch_plan_steps_and_keys run_name pipeline_name image_name
    kubernetes_namespace pb2_pipeline sorted_steps step_dependencies :
  sorted_steps <> [] ->
  exists config arguments names specific,
    pipeline_config run_name pb2_pipeline sorted_steps step_dependencies =
      inr config /\
    get_entrypoint_arguments run_name pipeline_name image_name
      kubernetes_namespace pb2_pipeline sorted_steps step_dependencies =
      inr (arguments ++ [json_dumps config]) /\
    json_get "sorted_steps" config = Some (json_strs names) /\
    length names = length sorted_steps /\
    json_get "step_specific_args" config = Some (json_dict specific) /\
    forall k, k ∈ keys specific <-> k ∈ names.
Proof.
  intros Hsteps. destruct sorted_steps as [|first steps]; [done|].
  eexists _, [_; _; _; _; _; _; _; _; _], _, _.
  unfold get_entrypoint_arguments. rewrite pipeline_config_cons.
  split; [reflexivity|]. split; [reflexivity|].
  split; [reflexivity|]. split; [by rewrite length_fmap|].
  split; [reflexivity|].
  intros k. apply keys_dict_comprehension.
Qed.

(** C5 (as amended): the builder does not look into the dependency map.  For
    every step list that is not empty and every dependency map, one that
    names a step outside the list included, it returns the launch plan, and
    the plan carries the map as it was given. *)
Theorem dependencies_are_passed_through run_name pipeline_name image_name
    kubernetes_namespace pb2_pipeline sorted_steps step_dependencies :
  sorted_steps <> [] ->
  exists config arguments,
    pipeline_config run_name pb2_pipeline sorted_steps step_dependencies =
      inr config /\
    get_entrypoint_arguments run_name pipeline_name image_name
      kubernetes_namespace pb2_pipeline sorted_steps step_dependencies =
      inr (arguments ++ [json_dumps config]) /\
    json_get "step_dependencies" config = Some (json_dict step_dependencies).
Proof.
  intros Hsteps. destruct sorted_steps as [|first steps]; [done|].
  eexists _, [_; _; _; _; _; _; _; _; _].
  unfold get_entrypoint_arguments. rewrite pipeline_config_cons.
  split; [reflexivity|]. split; reflexivity.
Qed.

(** C6: on an empty step list the builder raises ([sorted_steps[0]] is out
    of range) and returns no launch plan. *)
Theorem empty_step_list_raises run_name pipeline_name image_name
    kubernetes_namespace pb2_pipeline step_dependencies :
  get_entrypoint_arguments run_name pipeline_name image_name
    kubernetes_namespace pb2_pipeline [] step_dependencies =
  inl (IndexError "list index out of range").
Proof. reflexivity. Qed.

(** C8: the argument list of the coordinator is the four flags for run name,
    pipeline name, image and namespace, each followed by its value, and the
    one option whose value is the serialised document; the document has the
    fields [sorted_steps], [step_command], [fixed_step_args],
    [step_specific_args] and [step_dependencies] and no other. *)
Theorem entrypoint_arguments_layout run_name pipeline_name image_name
    kubernetes_namespace pb2_pipeline sorted_steps step_dependencies :
  sorted_steps <> [] ->
  exists config,
    pipeline_config run_name pb2_pipeline sorted_steps step_dependencies =
      inr config /\
    get_entrypoint_arguments run_name pipeline_name image_name
      kubernetes_namespace pb2_pipeline sorted_steps step_dependencies =
      inr ["--" +:+ RUN_NAME_OPTION; run_name;
           "--pipeline_name"; pipeline_name;
           "--image_name"; image_name;
           "--kubernetes_namespace"; kubernetes_namespace;
           "--pipeline_config"; json_dumps config] /\
    json_keys config =
      ["sorted_steps"; "step_command"; "fixed_step_args";
       "step_specific_args"; "step_dependencies"].
Proof.
  intros Hsteps. destruct sorted_steps as [|first steps]; [done|].
  eexists. unfold get_entrypoint_arguments. rewrite pipeline_config_cons.
  split; [reflexivity|]. split; reflexivity.
Qed.

End BuilderFacts.

(** *** The builder on the scenario of the specification *)

Section BuilderExamples.
Import Py KubernetesOrchestratorEntrypoint Scenario.
Local Open Scope list_scope.

(** Witness of C4: the steps [A] and [B], with [B] after [A]. *)
Lemma launch_plan_steps_and_keys_witness :
  ["A"; "B"] <> [] /\
  exists config arguments names specific,
    pipeline_config "run1" () ["A"; "B"] [("B", ["A"])] = inr config /\
    get_entrypoint_arguments "run1" "pipeline" "img1" "zenml" ()
      ["A"; "B"] [("B", ["A"])] = inr (arguments ++ [json_dumps config]) /\
    json_get "sorted_steps" config = Some (json_strs names) /\
    length names = length ["A"; "B"] /\
    json_get "step_specific_args" config = Some (json_dict specific) /\
    forall k, k ∈ keys specific <-> k ∈ names.
Proof.
  split; [discriminate|].
  apply (launch_plan_steps_and_keys (H := collaborators)). discriminate.
Defined.

(** Witness of C5: step [A] waits for a step [Z] that is not in the list. *)
Lemma dependencies_are_passed_through_witness :
  ["A"] <> [] /\
  exists config arguments,
    pipeline_config "run1" () ["A"] [("A", ["Z"])] = inr config /\
    get_entrypoint_arguments "run1" "pipeline" "img1" "zenml" ()
      ["A"] [("A", ["Z"])] = inr (arguments ++ [json_dumps config]) /\
    json_get "step_dependencies" config = Some (json_dict [("A", ["Z"])]).
Proof.
  split; [discriminate|].
  apply (dependencies_are_passed_through (H := collaborators)). discriminate.
Defined.

(** Counterexample to C5 as stated: step [A] waits for [Z], no step is named
    [Z], and the builder returns its arguments instead of an error. *)
Lemma dangling_reference_is_not_reported :
  ~ (dangling_reference ["A"] [("A", ["Z"])] ->
     exists e, get_entrypoint_arguments "run1" "pipeline" "img1" "zenml" ()
                 ["A"] [("A", ["Z"])] = inl e).
Proof.
  intros Hreported. destruct Hreported as [e He].
  - exists "Z". split.
    + simpl. apply list_elem_of_singleton. reflexivity.
    + simpl. intros HZ. apply list_elem_of_singleton in HZ. discriminate.
  - discriminate.
Qed.

(** Witness of C8. *)
Lemma entrypoint_arguments_layout_witness :
  ["A"; "B"] <> [] /\
  exists config,
    pipeline_config "run1" () ["A"; "B"] [("B", ["A"])] = inr config /\
    get_entrypoint_arguments "run1" "pipeline" "img1" "zenml" ()
      ["A"; "B"] [("B", ["A"])] =
      inr ["--" +:+ RUN_NAME_OPTION; "run1";
           "--pipeline_name"; "pipeline";
           "--image_name"; "img1";
           "--kubernetes_namespace"; "zenml";
           "--pipeline_config"; json_dumps config] /\
    json_keys config =
      ["sorted_steps"; "step_command"; "fixed_step_args";
       "step_specific_args"; "step_dependencies"].
Proof.
  split; [discriminate|].
  apply (entrypoint_arguments_layout (H := collaborators)). discriminate.
Defined.

(** The scenario of the specification: the plan of steps [A] and [B]. *)
Example scenario_plan :
  pipeline_config "run1" () ["A"; "B"] [("B", ["A"])] =
  inr (JObject [
    ("sorted_steps", json_strs ["A"; "B"]);
    ("step_command", json_strs step_entrypoint_command);
    ("fixed_step_args", json_strs ["--run_name"; "run1"; "--image"; "img1"]);
    ("step_specific_args",
     json_dict [("A", ["--step_source"; "A.step"]);
                ("B", ["--step_source"; "B.step"])]);
    ("step_dependencies", json_dict [("B", ["A"])])]).
Proof. reflexivity. Qed.

End BuilderExamples.

(** ** The artifact store *)

Section StoreFacts.
Import GCPArtifactStore.

Context `{Backend}.

(** The property hands out a file system and keeps it; the storage is not
    touched. *)
Lemma filesystem_inv st fs st' :
  filesystem st = (inr fs, st') ->
  _filesystem st' = Some fs /\ storage st' = storage st.
Proof.
  unfold filesystem. destruct st as [[cached|] s]; simpl.
  - intros [= -> <-]. done.
  - destruct get_authentication_secret as [e|secret]; [done|].
    intros [= <- <-]. done.
Qed.

Lemma filesystem_raises st e st' :
  filesystem st = (inl e, st') -> st' = st /\ exists e', e = Raised e'.
Proof.
  unfold filesystem. destruct st as [[cached|] s]; simpl; [done|].
  destruct get_authentication_secret as [e'|secret]; [|done].
  intros [= <- <-]. eauto.
Qed.

(** Once kept, the file system is handed out again. *)
Lemma filesystem_cached fs s :
  filesystem (State (Some fs) s) = (inr fs, State (Some fs) s).
Proof. reflexivity. Qed.

Lemma query_inv {A} (q : Storage -> Err + A) st r st' :
  query q st = (r, st') ->
  st' = st /\
  match r with
  | inl e => exists e', e = Raised e' /\ q (storage st) = inl e'
  | inr a => q (storage st) = inr a
  end.
Proof.
  unfold query. destruct (q (storage st)) as [e|a]; intros [= <- <-]; eauto.
Qed.

(** The guard of [copyfile] and [rename]: what it answers, and that it only
    reads. *)
Lemma guard_inv overwrite dst st r st' :
  and_then (negb overwrite) (fs ← filesystem; query (fs_exists fs dst)) st =
    (r, st') ->
  storage st' = storage st /\
  (forall msg, r <> inl (FileExistsError msg)) /\
  (r = inr true ->
   overwrite = false /\
   exists fs, filesystem st = (inr fs, st') /\
              fs_exists fs dst (storage st) = inr true).
Proof.
  destruct overwrite; simpl.
  - intros [= <- <-]. repeat split; done.
  - unfold mbind, M_bind.
    destruct (filesystem st) as [[e|fs] st1] eqn:Hfs.
    + intros [= <- <-]. apply filesystem_raises in Hfs as [-> [e' ->]].
      repeat split; done.
    + intros Hq. apply query_inv in Hq as [-> Hr].
      apply filesystem_inv in Hfs as Hst. destruct Hst as [_ Hst].
      split; [done|]. split.
      * intros msg ->. destruct Hr as (e' & [=] & _).
      * intros ->. split; [done|]. exists fs. by rewrite <- Hst.
Qed.

Lemma command_inv {A} (c : Storage -> (Err + A) * Storage) st r st' :
  command c st = (r, st') ->
  st' = State (_filesystem st) (c (storage st)).2 /\
  match r with
  | inl e => exists e', e = Raised e' /\ (c (storage st)).1 = inl e'
  | inr a => (c (storage st)).1 = inr a
  end.
Proof.
  unfold command. destruct (c (storage st)) as [[e|a] s']; simpl;
    intros [= <- <-]; eauto.
Qed.

(** A guarded call, the common shape of [copyfile] and [rename]: when it
    ends with the error of the guard, the guard had been asked, the
    destination was there, and nothing but the question went to the backend. *)
Lemma guarded_call_inv overwrite dst text
    (call : GCSFileSystem -> Storage -> (Err + unit) * Storage) st msg st' :
  (blocked ← and_then (negb overwrite)
               (fs ← filesystem; query (fs_exists fs dst));
   if (blocked : bool) then raise (FileExistsError text)
   else fs ← filesystem; command (call fs)) st =
    (inl (FileExistsError msg), st') ->
  storage st' = storage st /\ overwrite = false /\ msg = text /\
  exists fs, filesystem st = (inr fs, st') /\
             fs_exists fs dst (storage st) = inr true.
Proof.
  unfold mbind at 1. unfold M_bind at 1.
  destruct (and_then _ _ st) as [[e|blocked] st1] eqn:Hguard.
  - intros [= -> <-]. apply guard_inv in Hguard as (_ & Hno & _).
    by destruct (Hno msg).
  - apply guard_inv in Hguard as (Hst & _ & Hblocked).
    destruct blocked.
    + intros [= <- <-]. destruct (Hblocked eq_refl) as [-> Hfs]. done.
    + unfold mbind, M_bind.
      destruct (filesystem st1) as [[e|fs] st2] eqn:Hfs.
      * intros [= -> <-]. by apply filesystem_raises in Hfs as [_ [e' [=]]].
      * intros Hcall. by apply command_inv in Hcall as [_ (e' & [=] & _)].
Qed.

(** C7: with [overwrite=False], [copyfile] raises [FileExistsError] when the
    backend answers that [dst] exists.  With [overwrite=True] it never raises
    this error, whether [dst] exists or not; it returns when the copy of the
    backend does, and [dst] then holds the bytes [src] held when the call was
    made. *)
Theorem copyfile_overwrite_guard (contract : BackendContract) st src dst :
  (forall fs st1,
     filesystem st = (inr fs, st1) ->
     fs_exists fs dst (storage st) = inr true ->
     copyfile src dst false st =
       (inl (FileExistsError
          ("Unable to copy to destination '" +:+ convert_to_str dst +:+
           "', file already exists. Set `overwrite=True` to copy anyway.")),
        st1)) /\
  (forall r st',
     copyfile src dst true st = (r, st') ->
     forall msg, r <> inl (FileExistsError msg)) /\
  (forall fs st1 s',
     filesystem st = (inr fs, st1) ->
     fs_copy fs src dst (storage st) = (inr (), s') ->
     copyfile src dst true st = (inr (), State (Some fs) s') /\
     exists data,
       fs_cat_file fs src (storage st) = inr data /\
       fs_cat_file fs dst s' = inr data).
Proof.
  split; [|split].
  - intros fs st1 Hfs Hexists.
    apply filesystem_inv in Hfs as Hst1. destruct Hst1 as [_ Hst1].
    unfold copyfile, and_then, mbind, M_bind, query. simpl.
    rewrite Hfs, Hst1, Hexists. reflexivity.
  - intros r st' Hcopy msg ->.
    apply guarded_call_inv in Hcopy as (_ & [=] & _).
  - intros fs st1 s' Hfs Hbackend.
    apply filesystem_inv in Hfs as Hst1. destruct Hst1 as [Hcached Hst1].
    split; [|by apply (copy_content _ _ _ _ _ Hbackend)].
    unfold copyfile, and_then, mbind, M_bind, mret, M_ret, command. simpl.
    rewrite Hfs, Hst1, Hbackend, Hcached. reflexivity.
Qed.

(** C9: a second [makedirs] on the same path returns without error and
    leaves everything as the first call left it; and when the target exists
    before the first call, both calls return without error and the storage is
    what it was. *)
Theorem makedirs_idempotent (contract : BackendContract) st path :
  (forall st1,
     makedirs path st = (inr (), st1) ->
     makedirs path st1 = (inr (), st1)) /\
  (forall fs st0,
     filesystem st = (inr fs, st0) ->
     fs_exists fs path (storage st) = inr true ->
     makedirs path st = (inr (), st0) /\
     makedirs path st0 = (inr (), st0) /\
     storage st0 = storage st).
Proof.
  assert (forall fs s, fs_exists fs path s = inr true ->
            makedirs path (State (Some fs) s) = (inr (), State (Some fs) s))
    as Hagain.
  { intros fs s Hexists. unfold makedirs, mbind, M_bind.
    rewrite filesystem_cached. unfold command. simpl.
    by rewrite (makedirs_exist_ok _ _ _ Hexists). }
  split.
  - intros st1. unfold makedirs, mbind, M_bind.
    destruct (filesystem st) as [[e|fs] st0] eqn:Hfs; [done|].
    intros Hfirst. apply command_inv in Hfirst as [-> Hdone].
    apply filesystem_inv in Hfs as [-> _].
    destruct (fs_makedirs fs path true (storage st0)) as [outcome s'] eqn:Hbackend.
    simpl in *. subst outcome.
    apply Hagain. by apply (makedirs_exists _ _ _ _ Hbackend).
  - intros fs st0 Hfs Hexists.
    apply filesystem_inv in Hfs as Hst0. destruct Hst0 as [Hcached Hst0].
    destruct st0 as [cached s0]. simpl in *. subst cached s0.
    split; [|split; [|done]].
    + unfold makedirs, mbind, M_bind. rewrite Hfs. unfold command. simpl.
      by rewrite (makedirs_exist_ok _ _ _ Hexists).
    + by apply Hagain.
Qed.

(** C10: when [copyfile] or [rename] ends with the error of the overwrite
    guard, [overwrite] was false, the backend had only been asked whether
    [dst] exists, and the storage is what it was before the call. *)
Theorem overwrite_guard_error_leaves_storage st src dst overwrite msg st' :
  (copyfile src dst overwrite st = (inl (FileExistsError msg), st') ->
   storage st' = storage st /\ overwrite = false /\
   exists fs, filesystem st = (inr fs, st') /\
              fs_exists fs dst (storage st) = inr true) /\
  (rename src dst overwrite st = (inl (FileExistsError msg), st') ->
   storage st' = storage st /\ overwrite = false /\
   exists fs, filesystem st = (inr fs, st') /\
              fs_exists fs dst (storage st) = inr true).
Proof.
  split; intros Hraised;
    apply guarded_call_inv in Hraised as (Hstorage & Hoverwrite & _ & Hasked);
    done.
Qed.

End StoreFacts.

(** *** The store over the storage kept in memory *)

Section StoreExamples.
Import GCPArtifactStore MemoryBackend.

(** The storage kept in memory honours the contract. *)
Lemma memory_contract : BackendContract.
Proof.
  split.
  - intros fs src dst s s'. simpl in *. unfold mem_copy.
    destruct (objects s !! src) as [data|] eqn:Hsrc; [|done].
    intros [= <-]. exists data. simpl. by rewrite lookup_insert_eq.
  - intros fs path s s'. simpl in *. unfold mem_makedirs.
    destruct (present path s) eqn:Hpresent.
    + intros [= <-]. by rewrite Hpresent.
    + intros [= <-]. f_equal. unfold present. cbn [directories].
      apply orb_true_iff. right. apply bool_decide_eq_true.
      rewrite !elem_of_union, elem_of_singleton. by right; left.
  - intros fs path s. simpl in *. unfold mem_makedirs.
    by intros [= ->].
Qed.

(** Witness of C7: [y] is there, so the copy of [x] onto it is refused, and
    made when [overwrite] is set. *)
Lemma copyfile_overwrite_guard_witness :
  BackendContract /\
  copyfile ["b"; "x"] ["b"; "y"] false fresh =
    (inl (FileExistsError
       "Unable to copy to destination 'gs://b/y', file already exists. Set `overwrite=True` to copy anyway."),
     connected) /\
  (forall r st',
     copyfile ["b"; "x"] ["b"; "y"] true fresh = (r, st') ->
     forall msg, r <> inl (FileExistsError msg)) /\
  copyfile ["b"; "x"] ["b"; "y"] true fresh =
    (inr (), State (Some (new_GCSFileSystem None)) two_copies) /\
  exists data,
    fs_cat_file (new_GCSFileSystem None) ["b"; "x"] (storage fresh) = inr data /\
    fs_cat_file (new_GCSFileSystem None) ["b"; "y"] two_copies = inr data.
Proof.
  split; [exact memory_contract|].
  destruct (copyfile_overwrite_guard (H := backend) memory_contract
              fresh ["b"; "x"] ["b"; "y"])
    as (Hrefused & Hnever & Hmade).
  split; [apply (Hrefused (new_GCSFileSystem None) connected); reflexivity|].
  split; [exact Hnever|].
  apply (Hmade (new_GCSFileSystem None) connected two_copies); reflexivity.
Defined.

(** Witness of C9: a directory made and made again, and one made where an
    object is already. *)
Lemma makedirs_idempotent_witness :
  BackendContract /\
  makedirs ["b"; "d"; "e"] fresh = (inr (), with_directories) /\
  makedirs ["b"; "d"; "e"] with_directories = (inr (), with_directories) /\
  makedirs ["b"; "x"] fresh = (inr (), connected) /\
  makedirs ["b"; "x"] connected = (inr (), connected).
Proof.
  split; [exact memory_contract|].
  assert (makedirs ["b"; "d"; "e"] fresh = (inr (), with_directories))
    as Hfirst by reflexivity.
  split; [exact Hfirst|].
  split.
  - exact (proj1 (makedirs_idempotent (H := backend) memory_contract
                    fresh ["b"; "d"; "e"]) with_directories Hfirst).
  - destruct (proj2 (makedirs_idempotent (H := backend) memory_contract
                       fresh ["b"; "x"]) (new_GCSFileSystem None) connected)
      as (Hexisting & Hagain & _); [reflexivity | reflexivity |].
    split; [exact Hexisting | exact Hagain].
Defined.

(** Witness of C10: the refused copy of [x] onto [y]. *)
Lemma overwrite_guard_error_witness :
  copyfile ["b"; "x"] ["b"; "y"] false fresh =
    (inl (FileExistsError
       "Unable to copy to destination 'gs://b/y', file already exists. Set `overwrite=True` to copy anyway."),
     connected) /\
  storage connected = storage fresh /\
  false = false /\
  exists fs, filesystem fresh = (inr fs, connected) /\
             fs_exists fs ["b"; "y"] (storage fresh) = inr true.
Proof.
  assert (copyfile ["b"; "x"] ["b"; "y"] false fresh =
    (inl (FileExistsError
       "Unable to copy to destination 'gs://b/y', file already exists. Set `overwrite=True` to copy anyway."),
     connected)) as Hraised by reflexivity.
  split; [exact Hraised|].
  exact (proj1 (overwrite_guard_error_leaves_storage _ _ _ _ _ _) Hraised).
Defined.

End StoreExamples.

(** ** More on the argument codec *)

Section CodecLaws.
Import Py KubernetesOrchestratorEntrypoint.
Local Open Scope list_scope.

Variable options : list string.

Lemma chunk_sublist get_fixed l : chunk options get_fixed l `sublist_of` take 2 l.
Proof.
  destruct l as [|arg l]; [done|]. unfold chunk.
  destruct (_ && _); [done | apply sublist_nil_l].
Qed.

Lemma scan_elem_of get_fixed l x : x ∈ scan options get_fixed l -> x ∈ l.
Proof.
  induction l as [|arg l IH]; [done|].
  cbn [scan]. rewrite elem_of_app. intros [Hchunk | Hrest].
  - apply (elem_of_sublist _ _ _ Hchunk).
    etrans; [apply chunk_sublist | apply sublist_take].
  - apply elem_of_cons. right. by apply IH.
Qed.

Lemma chunk_nil_iff get_fixed arg l :
  chunk options get_fixed (arg :: l) = [] <->
  startswith arg "--" && eqb (is_fixed options arg) get_fixed = false.
Proof.
  unfold chunk. destruct (_ && _); [|done]. split; discriminate.
Qed.

Lemma scan_nil_iff get_fixed l :
  scan options get_fixed l = [] <->
  Forall (fun arg =>
    startswith arg "--" && eqb (is_fixed options arg) get_fixed = false) l.
Proof.
  induction l as [|arg l IH].
  - split; [constructor | done].
  - cbn [scan]. rewrite Forall_cons, <- IH, <- chunk_nil_iff.
    split.
    + intros Happ. by apply app_eq_nil in Happ.
    + intros [-> ->]. done.
Qed.

Lemma consume_pairs_sublist get_fixed l :
  consume_pairs options get_fixed l `sublist_of` l.
Proof.
  remember (length l) as n eqn:Hn. revert l Hn.
  induction n as [n IH] using lt_wf_ind. intros l Hn.
  destruct l as [|key rest]; [done|]. cbn [consume_pairs].
  destruct (startswith key "--").
  - destruct rest as [|value rest'].
    + rewrite app_nil_r. destruct (eqb _ _); [done | apply sublist_nil_l].
    + assert (consume_pairs options get_fixed rest' `sublist_of` rest') as Hrest.
      { apply (IH (length rest')); [simpl in Hn; lia | done]. }
      destruct (eqb _ _); simpl.
      * by do 2 apply sublist_skip.
      * by do 2 apply sublist_cons.
  - apply sublist_cons, (IH (length rest)); [simpl in Hn; lia | done].
Qed.

Lemma consume_pairs_category get_fixed l :
  values_unmarked l = true ->
  Forall (fun arg => startswith arg "--" = true ->
                     is_fixed options arg = get_fixed)
         (consume_pairs options get_fixed l).
Proof.
  remember (length l) as n eqn:Hn. revert l Hn.
  induction n as [n IH] using lt_wf_ind. intros l Hn Hl.
  destruct l as [|key rest]; [constructor|].
  cbn [consume_pairs values_unmarked] in *.
  destruct (startswith key "--") eqn:Hkey.
  - destruct rest as [|value rest'].
    + rewrite app_nil_r.
      destruct (eqb _ _) eqn:Hcat; [|constructor].
      apply eqb_prop in Hcat. simpl. repeat constructor. done.
    + apply andb_true_iff in Hl as [Hvalue Hrest]. apply negb_true_iff in Hvalue.
      apply Forall_app. split.
      * destruct (eqb _ _) eqn:Hcat; [|constructor].
        apply eqb_prop in Hcat. simpl. repeat constructor; [done|].
        intros Hmarked. congruence.
      * apply (IH (length rest')); [simpl in Hn; lia | done | done].
  - apply (IH (length rest)); [simpl in Hn; lia | done | done].
Qed.

(** X1: the codec invents nothing: whatever is in a partition is an element
    of the argument list. *)
Theorem codec_elements_come_from_input step_args get_fixed x :
  x ∈ get_fixed_step_args options step_args get_fixed -> x ∈ step_args.
Proof. rewrite get_fixed_step_args_scan. apply scan_elem_of. Qed.

(** X2: a partition is empty exactly when no element of the argument list
    begins with the marker and is of its category; in particular a list
    without any marked element ends in two empty partitions. *)
Theorem codec_empty_iff_no_key_of_category step_args get_fixed :
  get_fixed_step_args options step_args get_fixed = [] <->
  Forall (fun arg =>
    startswith arg "--" && eqb (is_fixed options arg) get_fixed = false)
    step_args.
Proof. rewrite get_fixed_step_args_scan. apply scan_nil_iff. Qed.

(** X3: when no value begins with the marker, a partition keeps the order of
    the argument list: it is the list with some elements left out. *)
Theorem codec_keeps_order step_args get_fixed :
  values_unmarked step_args = true ->
  get_fixed_step_args options step_args get_fixed `sublist_of` step_args.
Proof.
  intros Hvalues. rewrite get_fixed_step_args_scan, scan_consume_pairs by done.
  apply consume_pairs_sublist.
Qed.

(** X4: when no value begins with the marker, no option of the other
    category is in a partition: every marked element of the invariant
    partition is an invariant option, and every marked element of the
    step-specific partition is one of the step-specific options. *)
Theorem codec_partitions_are_pure step_args get_fixed :
  values_unmarked step_args = true ->
  Forall (fun arg => startswith arg "--" = true ->
                     is_fixed options arg = get_fixed)
         (get_fixed_step_args options step_args get_fixed).
Proof.
  intros Hvalues. rewrite get_fixed_step_args_scan, scan_consume_pairs by done.
  by apply consume_pairs_category.
Qed.

Lemma complete_pairs_well_formed l :
  complete_pairs l = true -> well_formed l = true.
Proof.
  remember (length l) as n eqn:Hn. revert l Hn.
  induction n as [n IH] using lt_wf_ind. intros l Hn Hl.
  destruct l as [|key [|value rest]]; [done | | ]; cbn in Hl |- *.
  - by rewrite andb_false_r in Hl.
  - apply andb_true_iff in Hl as [-> Hl].
    apply andb_true_iff in Hl as [-> Hl]. simpl.
    apply (IH (length rest)); [simpl in Hn; lia | done | done].
Qed.

Lemma complete_pairs_app a b :
  complete_pairs a = true -> complete_pairs b = true ->
  complete_pairs (a ++ b) = true.
Proof.
  remember (length a) as n eqn:Hn. revert a Hn.
  induction n as [n IH] using lt_wf_ind. intros a Hn Ha Hb.
  destruct a as [|key [|value rest]]; [done | | ]; cbn in Ha |- *.
  - by rewrite andb_false_r in Ha.
  - apply andb_true_iff in Ha as [-> Ha].
    apply andb_true_iff in Ha as [-> Ha]. simpl.
    apply (IH (length rest)); [simpl in Hn; lia | done | done | done].
Qed.

(** A complete pair in front is read on its own. *)
Lemma scan_pair get_fixed key value l :
  startswith key "--" = true -> startswith value "--" = false ->
  scan options get_fixed (key :: value :: l) =
  (if eqb (is_fixed options key) get_fixed then [key; value] else []) ++
  scan options get_fixed l.
Proof.
  intros Hkey Hvalue. cbn [scan].
  rewrite (chunk_marked _ _ _ _ Hkey), (chunk_unmarked _ _ _ _ Hvalue).
  by rewrite app_nil_l.
Qed.

Lemma scan_app get_fixed a b :
  complete_pairs a = true ->
  scan options get_fixed (a ++ b) =
  scan options get_fixed a ++ scan options get_fixed b.
Proof.
  remember (length a) as n eqn:Hn. revert a Hn.
  induction n as [n IH] using lt_wf_ind. intros a Hn Ha.
  destruct a as [|key [|value rest]]; [done | | ]; cbn in Ha.
  - by rewrite andb_false_r in Ha.
  - apply andb_true_iff in Ha as [Hkey Ha].
    apply andb_true_iff in Ha as [Hvalue Ha]. apply negb_true_iff in Hvalue.
    change ((key :: value :: rest) ++ b) with (key :: value :: (rest ++ b)).
    rewrite !scan_pair by done. rewrite <- app_assoc. f_equal.
    apply (IH (length rest)); [simpl in Hn; lia | done | done].
Qed.

Lemma scan_complete_pairs get_fixed l :
  complete_pairs l = true ->
  complete_pairs (scan options get_fixed l) = true.
Proof.
  remember (length l) as n eqn:Hn. revert l Hn.
  induction n as [n IH] using lt_wf_ind. intros l Hn Hl.
  destruct l as [|key [|value rest]]; [done | | ]; cbn in Hl.
  - by rewrite andb_false_r in Hl.
  - apply andb_true_iff in Hl as [Hkey Hl].
    apply andb_true_iff in Hl as [Hvalue Hl]. apply negb_true_iff in Hvalue.
    rewrite scan_pair by done.
    assert (complete_pairs (scan options get_fixed rest) = true) as Hrest.
    { apply (IH (length rest)); [simpl in Hn; lia | done | done]. }
    destruct (eqb _ _); [|done].
    cbn. by rewrite Hkey, Hvalue.
Qed.

(** Reading a partition again: the same category gives it back, the other
    category finds nothing. *)
Lemma scan_scan get_fixed again l :
  well_formed l = true ->
  scan options again (scan options get_fixed l) =
  if eqb get_fixed again then scan options get_fixed l else [].
Proof.
  remember (length l) as n eqn:Hn. revert l Hn.
  induction n as [n IH] using lt_wf_ind. intros l Hn Hl.
  destruct l as [|key [|value rest]].
  - by destruct (eqb _ _).
  - cbn in Hl. rewrite andb_true_r in Hl. cbn [scan]. rewrite app_nil_r.
    rewrite (chunk_marked _ _ _ _ Hl).
    destruct (eqb (is_fixed options key) get_fixed) eqn:Hcat.
    + apply eqb_prop in Hcat. subst get_fixed. cbn [take scan].
      rewrite app_nil_r, (chunk_marked _ _ _ _ Hl).
      by destruct (eqb _ _).
    + by destruct (eqb get_fixed again).
  - cbn in Hl. apply andb_true_iff in Hl as [Hkey Hl].
    apply andb_true_iff in Hl as [Hvalue Hl]. apply negb_true_iff in Hvalue.
    rewrite scan_pair by done.
    assert (scan options again (scan options get_fixed rest) =
            if eqb get_fixed again then scan options get_fixed rest else [])
      as Hrest.
    { apply (IH (length rest)); [simpl in Hn; lia | done | done]. }
    destruct (eqb (is_fixed options key) get_fixed) eqn:Hcat; [|done].
    apply eqb_prop in Hcat. subst get_fixed.
    change ([key; value] ++ ?s) with (key :: value :: s).
    rewrite scan_pair, Hrest by done.
    by destruct (eqb _ _).
Qed.

(** X5: past a run of complete pairs the codec starts afresh: the partition
    of a concatenation is the concatenation of the partitions. *)
Theorem codec_distributes_over_complete_pairs front back get_fixed :
  complete_pairs front = true ->
  get_fixed_step_args options (front ++ back) get_fixed =
  get_fixed_step_args options front get_fixed ++
  get_fixed_step_args options back get_fixed.
Proof.
  intros Hfront. rewrite !get_fixed_step_args_scan. by apply scan_app.
Qed.

(** X6: on a well-formed argument list the codec is idempotent, and the two
    categories exclude each other: the invariant partition has no
    step-specific arguments and the step-specific partition has no invariant
    ones. *)
Theorem codec_of_a_partition step_args get_fixed :
  well_formed step_args = true ->
  get_fixed_step_args options
    (get_fixed_step_args options step_args get_fixed) get_fixed =
  get_fixed_step_args options step_args get_fixed /\
  get_fixed_step_args options
    (get_fixed_step_args options step_args get_fixed) (negb get_fixed) = [].
Proof.
  intros Hwf. rewrite !get_fixed_step_args_scan, !scan_scan by done.
  rewrite eqb_reflx. by destruct get_fixed.
Qed.

(** X7: splitting, putting the partitions one after the other and splitting
    again gives the same partitions, when the argument list is made of
    complete pairs. *)
Theorem codec_splits_rejoined_partitions step_args get_fixed :
  complete_pairs step_args = true ->
  get_fixed_step_args options
    (get_fixed_step_args options step_args true ++
     get_step_specific_args options step_args) get_fixed =
  get_fixed_step_args options step_args get_fixed.
Proof.
  intros Hpairs. unfold get_step_specific_args.
  rewrite !get_fixed_step_args_scan.
  rewrite scan_app by by apply scan_complete_pairs.
  rewrite !scan_scan by by apply complete_pairs_well_formed.
  destruct get_fixed; simpl; [by rewrite app_nil_r | done].
Qed.

End CodecLaws.

Section CodecLawsExamples.
Import Py KubernetesOrchestratorEntrypoint.
Local Open Scope list_scope.

(** Witness of X1. *)
Lemma codec_elements_come_from_input_witness :
  "run1" ∈ get_fixed_step_args Scenario.step_specific_options
             ["--run_name"; "run1"; "--step_source"; "A.step"] true /\
  "run1" ∈ ["--run_name"; "run1"; "--step_source"; "A.step"].
Proof.
  assert ("run1" ∈ get_fixed_step_args Scenario.step_specific_options
             ["--run_name"; "run1"; "--step_source"; "A.step"] true) as Hin.
  { apply elem_of_cons. right. apply elem_of_cons. by left. }
  split; [exact Hin|].
  exact (codec_elements_come_from_input _ _ _ _ Hin).
Defined.

(** Witness of X3. *)
Lemma codec_keeps_order_witness :
  values_unmarked ["--run_name"; "run1"; "--step_source"; "A.step"; "--image"; "img1"] = true /\
  get_fixed_step_args Scenario.step_specific_options
    ["--run_name"; "run1"; "--step_source"; "A.step"; "--image"; "img1"] true
  `sublist_of` ["--run_name"; "run1"; "--step_source"; "A.step"; "--image"; "img1"].
Proof.
  split; [reflexivity|].
  apply (codec_keeps_order Scenario.step_specific_options). reflexivity.
Defined.

(** Witness of X4. *)
Lemma codec_partitions_are_pure_witness :
  values_unmarked ["--run_name"; "run1"; "--step_source"; "A.step"] = true /\
  Forall (fun arg => startswith arg "--" = true ->
                     is_fixed Scenario.step_specific_options arg = false)
    (get_fixed_step_args Scenario.step_specific_options
       ["--run_name"; "run1"; "--step_source"; "A.step"] false).
Proof.
  split; [reflexivity|].
  apply (codec_partitions_are_pure Scenario.step_specific_options). reflexivity.
Defined.

(** Witness of X5. *)
Lemma codec_distributes_witness :
  complete_pairs ["--run_name"; "run1"] = true /\
  get_fixed_step_args Scenario.step_specific_options
    (["--run_name"; "run1"] ++ ["--image"; "img1"; "--step_source"]) true =
  get_fixed_step_args Scenario.step_specific_options ["--run_name"; "run1"] true ++
  get_fixed_step_args Scenario.step_specific_options
    ["--image"; "img1"; "--step_source"] true.
Proof.
  split; [reflexivity|].
  apply (codec_distributes_over_complete_pairs Scenario.step_specific_options).
  reflexivity.
Defined.

(** The pairs in front must be complete: a key left without value takes the
    first element of what follows as its value. *)
Example codec_does_not_distribute_after_a_lone_key :
  get_fixed_step_args Scenario.step_specific_options
    (["--image"] ++ ["--run_name"; "run1"]) true <>
  get_fixed_step_args Scenario.step_specific_options ["--image"] true ++
  get_fixed_step_args Scenario.step_specific_options ["--run_name"; "run1"] true.
Proof. discriminate. Qed.

(** Witness of X6. *)
Lemma codec_of_a_partition_witness :
  well_formed ["--run_name"; "run1"; "--step_source"; "A.step"; "--image"] = true /\
  get_fixed_step_args Scenario.step_specific_options
    (get_fixed_step_args Scenario.step_specific_options
       ["--run_name"; "run1"; "--step_source"; "A.step"; "--image"] true) true =
  get_fixed_step_args Scenario.step_specific_options
    ["--run_name"; "run1"; "--step_source"; "A.step"; "--image"] true /\
  get_fixed_step_args Scenario.step_specific_options
    (get_fixed_step_args Scenario.step_specific_options
       ["--run_name"; "run1"; "--step_source"; "A.step"; "--image"] true)
    (negb true) = [].
Proof.
  split; [reflexivity|].
  apply (codec_of_a_partition Scenario.step_specific_options). reflexivity.
Defined.

(** Witness of X7. *)
Lemma codec_splits_rejoined_partitions_witness :
  complete_pairs ["--step_source"; "A.step"; "--run_name"; "run1"] = true /\
  get_fixed_step_args Scenario.step_specific_options
    (get_fixed_step_args Scenario.step_specific_options
       ["--step_source"; "A.step"; "--run_name"; "run1"] true ++
     get_step_specific_args Scenario.step_specific_options
       ["--step_source"; "A.step"; "--run_name"; "run1"]) false =
  get_fixed_step_args Scenario.step_specific_options
    ["--step_source"; "A.step"; "--run_name"; "run1"] false.
Proof.
  split; [reflexivity|].
  apply (codec_splits_rejoined_partitions Scenario.step_specific_options).
  reflexivity.
Defined.

End CodecLawsExamples.

(** ** More on the launch plan builder *)

Section DictLaws.
Import Py.
Local Open Scope list_scope.

Context {V : Type}.
Implicit Types (d : dict V) (k : string) (v : V).

Lemma dict_get_set_eq k v d : dict_get k (dict_set k v d) = Some v.
Proof.
  unfold dict_get. induction d as [|[k0 v0] d IH]; simpl.
  - by rewrite bool_decide_eq_true_2.
  - destruct (decide (k = k0)) as [->|Hne]; simpl.
    + by rewrite bool_decide_eq_true_2.
    + rewrite bool_decide_eq_false_2 by done. exact IH.
Qed.

Lemma dict_get_set_ne k k' v d :
  k <> k' -> dict_get k' (dict_set k v d) = dict_get k' d.
Proof.
  intros Hne. unfold dict_get. induction d as [|[k0 v0] d IH]; simpl.
  - by rewrite bool_decide_eq_false_2.
  - destruct (decide (k = k0)) as [->|Hne0]; simpl.
    + by rewrite !bool_decide_eq_false_2.
    + destruct (bool_decide (k0 = k')); [done | exact IH].
Qed.

Lemma keys_dict_set_fresh k v d :
  k ∉ keys d -> keys (dict_set k v d) = keys d ++ [k].
Proof.
  unfold keys. induction d as [|[k0 v0] d IH]; csimpl; [done|].
  intros Hfresh. apply not_elem_of_cons in Hfresh as [Hne Hfresh].
  destruct (decide (k = k0)); [done|]. csimpl. f_equal. by apply IH.
Qed.

Lemma keys_dict_set_known k v d :
  k ∈ keys d -> keys (dict_set k v d) = keys d.
Proof.
  unfold keys. induction d as [|[k0 v0] d IH]; csimpl.
  - by intros ?%elem_of_nil.
  - intros Hin. destruct (decide (k = k0)) as [->|Hne]; csimpl; [done|].
    apply elem_of_cons in Hin as [?|Hin]; [done|]. f_equal. by apply IH.
Qed.

Lemma NoDup_keys_dict_set k v d : NoDup (keys d) -> NoDup (keys (dict_set k v d)).
Proof.
  intros Hd. destruct (decide (k ∈ keys d)) as [Hin|Hfresh].
  - by rewrite keys_dict_set_known.
  - rewrite keys_dict_set_fresh by done.
    apply NoDup_app. split; [done|]. split; [|apply NoDup_singleton].
    intros x Hx ->%list_elem_of_singleton. done.
Qed.

Lemma NoDup_keys_foldl {A} (key : A -> string) (value : A -> V) l : forall d,
  NoDup (keys d) ->
  NoDup (keys (foldl (fun d x => dict_set (key x) (value x) d) d l)).
Proof.
  induction l as [|x l IH]; intros d Hd; simpl; [done|].
  by apply IH, NoDup_keys_dict_set.
Qed.

Lemma dict_get_foldl_other {A} (key : A -> string) (value : A -> V) k l :
  forall d,
    k ∉ key <$> l ->
    dict_get k (foldl (fun d x => dict_set (key x) (value x) d) d l) =
    dict_get k d.
Proof.
  induction l as [|x l IH]; intros d Hk; simpl; [done|].
  rewrite fmap_cons in Hk. apply not_elem_of_cons in Hk as [Hne Hk].
  rewrite IH by done. by apply dict_get_set_ne.
Qed.

(** In a comprehension the last element with a key decides its value. *)
Lemma dict_get_comprehension {A} (key : A -> string) (value : A -> V)
    pre x post :
  key x ∉ key <$> post ->
  dict_get (key x) (dict_comprehension key value (pre ++ x :: post)) =
  Some (value x).
Proof.
  intros Hlast. unfold dict_comprehension.
  rewrite foldl_app. simpl. rewrite dict_get_foldl_other by done.
  apply dict_get_set_eq.
Qed.

Lemma NoDup_keys_comprehension {A} (key : A -> string) (value : A -> V) l :
  NoDup (keys (dict_comprehension key value l)).
Proof. apply NoDup_keys_foldl. constructor. Qed.

End DictLaws.

Section BuilderLaws.
Import Py KubernetesOrchestratorEntrypoint.
Local Open Scope list_scope.

Context `{Collaborators}.

(** X8: the flags of the returned argument list are the options of
    [get_entrypoint_options], no more and no less: an option is in the set
    exactly when its flag stands at an even place of the list.  The list has
    ten elements. *)
Theorem entrypoint_flags_are_the_options run_name pipeline_name image_name
    kubernetes_namespace pb2_pipeline sorted_steps step_dependencies :
  sorted_steps <> [] ->
  exists arguments,
    get_entrypoint_arguments run_name pipeline_name image_name
      kubernetes_namespace pb2_pipeline sorted_steps step_dependencies =
      inr arguments /\
    length arguments = 10 /\
    forall option,
      option ∈ get_entrypoint_options <->
      exists i, arguments !! (2 * i) = Some ("--" +:+ option).
Proof.
  intros Hsteps. destruct sorted_steps as [|first steps]; [done|].
  eexists. unfold get_entrypoint_arguments. rewrite pipeline_config_cons.
  split; [reflexivity|]. split; [reflexivity|].
  intros option. unfold get_entrypoint_options.
  rewrite !elem_of_union, !elem_of_singleton. split.
  - intros [[[[-> | ->] | ->] | ->] | ->];
      [exists 0 | exists 1 | exists 2 | exists 3 | exists 4]; reflexivity.
  - intros [i Hi].
    do 5 (destruct i as [|i]; [simpl in Hi; injection Hi as Hi; subst; auto 10|]).
    apply lookup_lt_Some in Hi. simpl in Hi. lia.
Qed.

(** X9: [step_specific_args] has one entry for each step name, and the entry
    of a name is made from the last step of that name: steps that share a
    name leave only the arguments of the last of them.  When the names are
    all different every step finds its own arguments. *)
Theorem step_specific_args_of_last_step run_name pb2_pipeline pre step post
    step_dependencies :
  name step ∉ name <$> post ->
  exists config specific,
    pipeline_config run_name pb2_pipeline (pre ++ step :: post)
      step_dependencies = inr config /\
    json_get "step_specific_args" config = Some (json_dict specific) /\
    NoDup (keys specific) /\
    dict_get (name step) specific =
      Some (get_step_specific_args STEP_SPECIFIC_STEP_ENTRYPOINT_OPTIONS
              (step_entrypoint_arguments step pb2_pipeline run_name)).
Proof.
  intros Hlast.
  destruct (pre ++ step :: post) as [|first steps] eqn:Hsteps.
  { by destruct pre. }
  eexists _, _. rewrite pipeline_config_cons.
  split; [reflexivity|]. split; [reflexivity|]. split.
  - apply NoDup_keys_comprehension.
  - rewrite <- Hsteps.
    apply (dict_get_comprehension name
      (fun step => get_step_specific_args STEP_SPECIFIC_STEP_ENTRYPOINT_OPTIONS
                     (step_entrypoint_arguments step pb2_pipeline run_name))).
    exact Hlast.
Qed.

(** X10: no argument of a step is lost between the shared and its own part
    of the plan, when the step has the invariant arguments of the first
    step: for a step whose argument list is well formed and whose name no
    later step bears, [fixed_step_args] and its entry of
    [step_specific_args] hold together exactly the arguments of the step. *)
Theorem plan_restores_step_arguments run_name pb2_pipeline first pre step post
    step_dependencies :
  head (pre ++ step :: post) = Some first ->
  name step ∉ name <$> post ->
  well_formed (step_entrypoint_arguments step pb2_pipeline run_name) = true ->
  get_fixed_step_args STEP_SPECIFIC_STEP_ENTRYPOINT_OPTIONS
    (step_entrypoint_arguments step pb2_pipeline run_name) true =
  get_fixed_step_args STEP_SPECIFIC_STEP_ENTRYPOINT_OPTIONS
    (step_entrypoint_arguments first pb2_pipeline run_name) true ->
  exists config fixed specific own,
    pipeline_config run_name pb2_pipeline (pre ++ step :: post)
      step_dependencies = inr config /\
    json_get "fixed_step_args" config = Some (json_strs fixed) /\
    json_get "step_specific_args" config = Some (json_dict specific) /\
    dict_get (name step) specific = Some own /\
    fixed ++ own ≡ₚ step_entrypoint_arguments step pb2_pipeline run_name.
Proof.
  intros Hfirst Hlast Hwf Hshared.
  destruct (pre ++ step :: post) as [|first' steps] eqn:Hsteps; [done|].
  injection Hfirst as ->.
  eexists _, _, _, _. rewrite pipeline_config_cons.
  split; [reflexivity|]. split; [reflexivity|]. split; [reflexivity|]. split.
  - rewrite <- Hsteps.
    apply (dict_get_comprehension name
      (fun step => get_step_specific_args STEP_SPECIFIC_STEP_ENTRYPOINT_OPTIONS
                     (step_entrypoint_arguments step pb2_pipeline run_name))).
    exact Hlast.
  - rewrite <- Hshared. unfold get_step_specific_args.
    rewrite !get_fixed_step_args_scan. by apply scan_partition.
Qed.

End BuilderLaws.

Section BuilderLawsExamples.
Import Py KubernetesOrchestratorEntrypoint Scenario.
Local Open Scope list_scope.

(** Witness of X8. *)
Lemma entrypoint_flags_witness :
  ["A"; "B"] <> [] /\
  exists arguments,
    get_entrypoint_arguments "run1" "pipeline" "img1" "zenml" ()
      ["A"; "B"] [("B", ["A"])] = inr arguments /\
    length arguments = 10 /\
    forall option,
      option ∈ get_entrypoint_options <->
      exists i, arguments !! (2 * i) = Some ("--" +:+ option).
Proof.
  split; [discriminate|].
  apply (entrypoint_flags_are_the_options (H := collaborators)). discriminate.
Defined.

(** Witness of X9: of the steps [A], [B], [A] the second [A] is the last of
    its name. *)
Lemma step_specific_args_of_last_step_witness :
  (name "A" ∉ name <$> []) /\
  exists config specific,
    pipeline_config "run1" () (["A"; "B"] ++ "A" :: []) [] = inr config /\
    json_get "step_specific_args" config = Some (json_dict specific) /\
    NoDup (keys specific) /\
    dict_get (name "A") specific =
      Some (get_step_specific_args STEP_SPECIFIC_STEP_ENTRYPOINT_OPTIONS
              (step_entrypoint_arguments "A" () "run1")).
Proof.
  assert (name "A" ∉ name <$> []) as Hlast by apply not_elem_of_nil.
  split; [exact Hlast|].
  exact (step_specific_args_of_last_step (H := collaborators)
           "run1" () ["A"; "B"] "A" [] [] Hlast).
Defined.

(** Witness of X10: step [B] of the scenario. *)
Lemma plan_restores_step_arguments_witness :
  (name "B" ∉ name <$> []) /\
  well_formed (step_entrypoint_arguments "B" () "run1") = true /\
  exists config fixed specific own,
    pipeline_config "run1" () (["A"] ++ "B" :: []) [("B", ["A"])] =
      inr config /\
    json_get "fixed_step_args" config = Some (json_strs fixed) /\
    json_get "step_specific_args" config = Some (json_dict specific) /\
    dict_get (name "B") specific = Some own /\
    fixed ++ own ≡ₚ step_entrypoint_arguments "B" () "run1".
Proof.
  assert (name "B" ∉ name <$> []) as Hlast by apply not_elem_of_nil.
  split; [exact Hlast|]. split; [reflexivity|].
  exact (plan_restores_step_arguments (H := collaborators)
           "run1" () "A" ["A"] "B" [] [("B", ["A"])]
           eq_refl Hlast eq_refl eq_refl).
Defined.

End BuilderLawsExamples.

(** ** More on the artifact store *)

Section StoreLaws.
Import GCPArtifactStore.

Context `{BackendExtra}.

(** Unfolds a method down to the calls of the backend. *)
Ltac unfold_method :=
  unfold run, open, copyfile, exists_, glob, isdir, listdir, makedirs, mkdir,
    remove, rename, rmtree, stat, walk, and_then, raise, query, command,
    filesystem, mbind, M_bind, mret, M_ret; simpl.

(** Takes the outcome of every call apart. *)
Ltac split_outcomes :=
  repeat match goal with
  | |- context [match ?x with _ => _ end] =>
      lazymatch x with
      | context [match _ with _ => _ end] => fail
      | _ => destruct x eqn:?; simpl in *
      end
  | |- context [let '(_, _) := ?x in _] => destruct x eqn:?; simpl in *
  end.

(** X11: the store makes its file system at most once, on first use and from
    the credentials, and keeps it through every call, whether the call
    returns or raises. *)
Theorem store_keeps_its_filesystem {A} (c : call A) st r st' :
  run c st = (r, st') ->
  (forall fs, _filesystem st = Some fs -> _filesystem st' = Some fs) /\
  (forall secret,
     _filesystem st = None ->
     get_authentication_secret = inr secret ->
     _filesystem st' =
       Some (new_GCSFileSystem (get_credential_dict <$> secret))).
Proof.
  destruct st as [cached s]. intros Hrun. split.
  - intros fs [= ->]. revert Hrun.
    destruct c; try destruct overwrite; unfold_method; split_outcomes;
      by intros [= <- <-].
  - intros secret [= ->] Hsecret. revert Hrun.
    destruct c; try destruct overwrite; unfold_method; rewrite Hsecret; simpl;
      split_outcomes; by intros [= <- <-].
Qed.

(** X12: when the credentials cannot be resolved, every call of a store
    that has no file system yet raises that error, asks nothing of the
    backend and leaves the store as it was, so that the next call tries
    again. *)
Theorem credential_failure_stops_every_call {A} (c : call A) st e :
  _filesystem st = None ->
  get_authentication_secret = inl e ->
  run c st = (inl (Raised e), st).
Proof.
  destruct st as [cached s]. intros [= ->] Hsecret.
  destruct c; try destruct overwrite; unfold_method; by rewrite Hsecret.
Qed.

(** X13: [copyfile] and [rename] without [overwrite] are the only calls that
    raise the [FileExistsError] of the store; when one does, the backend had
    answered that its destination exists.  No other method, [mkdir] and
    [makedirs] included, raises it. *)
Theorem only_guarded_calls_raise_file_exists {A} (c : call A) st msg st' :
  run c st = (inl (FileExistsError msg), st') ->
  exists dst fs,
    guarded_onto c dst /\
    _filesystem st' = Some fs /\
    fs_exists fs dst (storage st) = inr true.
Proof.
  destruct st as [cached s].
  destruct c; try destruct overwrite; unfold_method; split_outcomes;
    try (intros [= <- <-]); try discriminate; subst; eauto.
Qed.

(** X14: when the backend answers that [dst] does not exist, the guard lets
    the call through: [copyfile] and [rename] without [overwrite] do what
    they do with it, with the same outcome and the same final state. *)
Theorem guard_passes_absent_destination st src dst fs st1 :
  filesystem st = (inr fs, st1) ->
  fs_exists fs dst (storage st) = inr false ->
  copyfile src dst false st = copyfile src dst true st /\
  rename src dst false st = rename src dst true st.
Proof.
  intros Hfs Habsent.
  apply filesystem_inv in Hfs as Hst1. destruct Hst1 as [Hcached Hst1].
  assert (filesystem st1 = (inr fs, st1)) as Hagain.
  { destruct st1 as [cached s1]. simpl in Hcached. subst cached.
    apply filesystem_cached. }
  split; unfold copyfile, rename, and_then, mbind, M_bind, query; simpl;
    rewrite Hfs, Hst1, Habsent; simpl; by rewrite Hagain.
Qed.

(** X15: [rename] has the guard of [copyfile].  Without [overwrite] it
    raises [FileExistsError], naming [dst], when the backend answers that
    [dst] exists; with [overwrite] it never raises this error and returns
    when the rename of the backend does, with the storage the backend
    left. *)
Theorem rename_overwrite_guard st src dst :
  (forall fs st1,
     filesystem st = (inr fs, st1) ->
     fs_exists fs dst (storage st) = inr true ->
     rename src dst false st =
       (inl (FileExistsError
          ("Unable to rename file to '" +:+ convert_to_str dst +:+
           "', file already exists. Set `overwrite=True` to rename anyway.")),
        st1)) /\
  (forall r st',
     rename src dst true st = (r, st') ->
     forall msg, r <> inl (FileExistsError msg)) /\
  (forall fs st1 s',
     filesystem st = (inr fs, st1) ->
     fs_rename fs src dst (storage st) = (inr (), s') ->
     rename src dst true st = (inr (), State (Some fs) s')).
Proof.
  split; [|split].
  - intros fs st1 Hfs Hexists.
    apply filesystem_inv in Hfs as Hst1. destruct Hst1 as [_ Hst1].
    unfold rename, and_then, mbind, M_bind, query. simpl.
    rewrite Hfs, Hst1, Hexists. reflexivity.
  - intros r st' Hrename msg ->.
    apply guarded_call_inv in Hrename as (_ & [=] & _).
  - intros fs st1 s' Hfs Hbackend.
    apply filesystem_inv in Hfs as Hst1. destruct Hst1 as [Hcached Hst1].
    unfold rename, and_then, mbind, M_bind, mret, M_ret, command. simpl.
    rewrite Hfs, Hst1, Hbackend, Hcached. reflexivity.
Qed.

(** X16: when the question whether [dst] exists fails in the backend,
    [copyfile] and [rename] without [overwrite] pass that error on; nothing
    is copied or renamed, the storage is what it was. *)
Theorem guard_failure_is_passed_on st src dst fs st1 e :
  filesystem st = (inr fs, st1) ->
  fs_exists fs dst (storage st) = inl e ->
  copyfile src dst false st = (inl (Raised e), st1) /\
  rename src dst false st = (inl (Raised e), st1) /\
  storage st1 = storage st.
Proof.
  intros Hfs Hfails.
  apply filesystem_inv in Hfs as Hst1. destruct Hst1 as [_ Hst1].
  repeat split; [| |done];
    unfold copyfile, rename, and_then, mbind, M_bind, query; simpl;
    by rewrite Hfs, Hst1, Hfails.
Qed.

End StoreLaws.

Section StoreLawsExamples.
Import GCPArtifactStore MemoryBackend.

(** Witness of X11: the first call makes the file system, from no secret. *)
Lemma store_keeps_its_filesystem_witness :
  run (MakeDirs ["b"; "d"; "e"]) fresh = (inr (), with_directories) /\
  (forall fs, _filesystem fresh = Some fs ->
              _filesystem with_directories = Some fs) /\
  (forall secret,
     _filesystem fresh = None ->
     get_authentication_secret = inr secret ->
     _filesystem with_directories =
       Some (new_GCSFileSystem (get_credential_dict <$> secret))).
Proof.
  assert (run (MakeDirs ["b"; "d"; "e"]) fresh = (inr (), with_directories))
    as Hrun by reflexivity.
  split; [exact Hrun|].
  exact (store_keeps_its_filesystem _ _ _ _ Hrun).
Defined.

(** Witness of X12: no secret can be found and the backend is not asked. *)
Lemma credential_failure_witness :
  run (RmTree (H0 := UnreachableBackend.unreachable_extra (inl "KeyError"))
         "gs://b/d")
      (UnreachableBackend.unused (inl "KeyError")) =
  (inl (Raised "KeyError"), UnreachableBackend.unused (inl "KeyError")).
Proof.
  apply (credential_failure_stops_every_call
           (H0 := UnreachableBackend.unreachable_extra (inl "KeyError")));
    reflexivity.
Defined.

(** Witness of X13: the refused copy of [x] onto [y]. *)
Lemma only_guarded_calls_witness :
  run (CopyFile ["b"; "x"] ["b"; "y"] false) fresh =
    (inl (FileExistsError
       "Unable to copy to destination 'gs://b/y', file already exists. Set `overwrite=True` to copy anyway."),
     connected) /\
  exists dst fs,
    guarded_onto (CopyFile ["b"; "x"] ["b"; "y"] false) dst /\
    _filesystem connected = Some fs /\
    fs_exists fs dst (storage fresh) = inr true.
Proof.
  assert (run (CopyFile ["b"; "x"] ["b"; "y"] false) fresh =
    (inl (FileExistsError
       "Unable to copy to destination 'gs://b/y', file already exists. Set `overwrite=True` to copy anyway."),
     connected)) as Hrun by reflexivity.
  split; [exact Hrun|].
  exact (only_guarded_calls_raise_file_exists _ _ _ _ Hrun).
Defined.

(** Witness of X14: nothing is at [z]. *)
Lemma guard_passes_witness :
  fs_exists (new_GCSFileSystem None) ["b"; "z"] (storage fresh) = inr false /\
  copyfile ["b"; "x"] ["b"; "z"] false fresh =
    copyfile ["b"; "x"] ["b"; "z"] true fresh /\
  rename ["b"; "x"] ["b"; "z"] false fresh =
    rename ["b"; "x"] ["b"; "z"] true fresh.
Proof.
  split; [reflexivity|].
  apply (guard_passes_absent_destination (H := backend) fresh
           ["b"; "x"] ["b"; "z"] (new_GCSFileSystem None) connected);
    reflexivity.
Defined.

(** Witness of X15: [x] renamed to [y], refused and then made. *)
Lemma rename_overwrite_guard_witness :
  rename ["b"; "x"] ["b"; "y"] false fresh =
    (inl (FileExistsError
       "Unable to rename file to 'gs://b/y', file already exists. Set `overwrite=True` to rename anyway."),
     connected) /\
  rename ["b"; "x"] ["b"; "y"] true fresh =
    (inr (), State (Some (new_GCSFileSystem None)) renamed).
Proof.
  destruct (rename_overwrite_guard (H := backend) fresh ["b"; "x"] ["b"; "y"])
    as (Hrefused & _ & Hmade).
  split.
  - apply (Hrefused (new_GCSFileSystem None) connected); reflexivity.
  - apply (Hmade (new_GCSFileSystem None) connected renamed); reflexivity.
Defined.

(** Witness of X16: the backend cannot be reached. *)
Lemma guard_failure_witness :
  copyfile (H := UnreachableBackend.unreachable (inr None))
    "gs://b/x" "gs://b/y" false (UnreachableBackend.unused (inr None)) =
    (inl (Raised "ConnectionError"), UnreachableBackend.used (inr None)) /\
  rename (H := UnreachableBackend.unreachable (inr None))
    "gs://b/x" "gs://b/y" false (UnreachableBackend.unused (inr None)) =
    (inl (Raised "ConnectionError"), UnreachableBackend.used (inr None)) /\
  storage (UnreachableBackend.used (inr None)) =
    storage (UnreachableBackend.unused (inr None)).
Proof.
  apply (guard_failure_is_passed_on
           (H := UnreachableBackend.unreachable (inr None))
           (UnreachableBackend.unused (inr None)) "gs://b/x" "gs://b/y" None);
    reflexivity.
Defined.

End StoreLawsExamples.
